(** * OmegaAI proxy: the [POST /chat] admission pipeline of [src/server.js]

    The handler validates the request body, verifies the purchase receipt,
    matches an unexpired subscription entry for the requested model, enforces
    the per-model quota held in the process-wide [usageTracker], forwards the
    prompt to the completion service and commits one unit of usage.

    JavaScript strings are sequences of UTF-16 code units, numbers that the
    handler computes with are integers (epoch milliseconds and call counts,
    all far below 2^53, where doubles are exact), the [Map] is a [gmap], and
    every suspension point ([await]) of the handler is a program point of a
    small step machine, so that interleavings of requests can be stated. *)

From Stdlib Require Import ZArith NArith String Ascii DecimalString DecimalPos Sorted Permutation.
From stdpp Require Import gmap list sorting strings.

Local Open Scope Z_scope.
Set Warnings "-register-all".

(** ** Strings *)

Module JsString.

(** A JavaScript string: its UTF-16 code units. *)
Abbreviation jsstring := (list N).

(** A source literal (ASCII only in [server.js]) as code units. *)
Fixpoint js (s : string) : jsstring :=
  match s with
  | EmptyString => []
  | String a s' => N_of_ascii a :: js s'
  end.

(** WhiteSpace and LineTerminator code points of ECMAScript, the ones
    [String.prototype.trim] and [parseInt] strip. *)
Definition is_white_space (c : N) : bool :=
  ((9 <=? c) && (c <=? 13) || (c =? 32) || (c =? 160) || (c =? 5760)
   || (8192 <=? c) && (c <=? 8202) || (c =? 8232) || (c =? 8233)
   || (c =? 8239) || (c =? 8287) || (c =? 12288) || (c =? 65279))%N.

Fixpoint trim_start (s : jsstring) : jsstring :=
  match s with
  | [] => []
  | c :: s' => if is_white_space c then trim_start s' else s
  end.

Definition trim_end (s : jsstring) : jsstring := rev (trim_start (rev s)).

(** [s.trim()] *)
Definition trim (s : jsstring) : jsstring := trim_end (trim_start s).

(** Value of a code unit as a digit, for radices up to 36. *)
Definition digit_value (c : N) : option Z :=
  if ((48 <=? c) && (c <=? 57))%N then Some (Z.of_N c - 48)
  else if ((97 <=? c) && (c <=? 122))%N then Some (Z.of_N c - 87)
  else if ((65 <=? c) && (c <=? 90))%N then Some (Z.of_N c - 55)
  else None.

(** The longest prefix of radix-[R] digits, read as an integer; [None] when
    that prefix is empty. *)
Fixpoint digits (R : Z) (s : jsstring) (acc : option Z) : option Z :=
  match s with
  | [] => acc
  | c :: s' =>
      match digit_value c with
      | Some d =>
          if d <? R
          then digits R s' (Some (match acc with Some a => a * R + d | None => d end))
          else acc
      | None => acc
      end
  end.

(** [parseInt(s)] with no radix argument; [None] is NaN.  The result is the
    integer the digits denote; the code's number is the double nearest to it,
    which is that integer whenever its magnitude is below 2^53. *)
Definition parseInt_string (s : jsstring) : option Z :=
  let s1 := trim_start s in
  let '(sign, s2) :=
    match s1 with
    | 45%N :: r => (-1, r)
    | 43%N :: r => (1, r)
    | _ => (1, s1)
    end in
  let '(R, s3) :=
    match s2 with
    | 48%N :: 120%N :: r => (16, r)
    | 48%N :: 88%N :: r => (16, r)
    | _ => (10, s2)
    end in
  match digits R s3 None with
  | Some n => Some (sign * n)
  | None => None
  end.

End JsString.
Import JsString.

(** ** Primitive values *)

(** The primitive values a field of a parsed payload can hold; [VUndefined]
    is an absent property.  A number is an integer of magnitude below 2^53. *)
Inductive value :=
| VUndefined
| VNull
| VBool (b : bool)
| VNumber (n : Z)
| VString (s : jsstring).

#[global] Instance value_eq_dec : EqDecision value.
Proof. solve_decision. Defined.

Definition value_encode (v : value) : unit + (unit + (bool + (Z + jsstring))) :=
  match v with
  | VUndefined => inl tt
  | VNull => inr (inl tt)
  | VBool b => inr (inr (inl b))
  | VNumber n => inr (inr (inr (inl n)))
  | VString s => inr (inr (inr (inr s)))
  end.

Definition value_decode (x : unit + (unit + (bool + (Z + jsstring)))) : value :=
  match x with
  | inl _ => VUndefined
  | inr (inl _) => VNull
  | inr (inr (inl b)) => VBool b
  | inr (inr (inr (inl n))) => VNumber n
  | inr (inr (inr (inr s))) => VString s
  end.

#[global] Instance value_countable : Countable value.
Proof.
  refine (inj_countable' value_encode value_decode _).
  intros []; reflexivity.
Defined.

(** [ToString] on primitives.  A number is printed with all its digits, as
    the code prints the integers of magnitude below 10^21 (and so those below
    2^53, the numbers of this model). *)
Definition ToString (v : value) : jsstring :=
  match v with
  | VUndefined => js "undefined"
  | VNull => js "null"
  | VBool true => js "true"
  | VBool false => js "false"
  | VNumber n => js (NilZero.string_of_int (Z.to_int n))
  | VString s => s
  end.

(** [parseInt(v)]: the argument is converted with [ToString] first. *)
Definition parseInt (v : value) : option Z := parseInt_string (ToString v).

(** ** JSON documents *)

(** A parsed JSON document: the request body's fields and the completion
    service's reply.  The handler looks at no number of these documents, only
    at whether a value is one. *)
Inductive json :=
| JNull
| JBool (b : bool)
| JNumber (n : Z)
| JString (s : jsstring)
| JArray (items : list json)
| JObject (properties : list (jsstring * json)).

(** Own property [name] of an object; [None] is [undefined]. *)
Fixpoint own_property (name : jsstring) (properties : list (jsstring * json)) : option json :=
  match properties with
  | [] => None
  | (k, v) :: rest => if decide (k = name) then Some v else own_property name rest
  end.

(** [j.name] for a name that no prototype defines ([choices], [message],
    [content]) on a value [j] that is neither [null] nor [undefined]. *)
Definition property (name : jsstring) (j : json) : option json :=
  match j with
  | JObject properties => own_property name properties
  | _ => None
  end.

(** [j[0]] on a value that is neither [null] nor [undefined]. *)
Definition index0 (j : json) : option json :=
  match j with
  | JArray items => head items
  | JString s => match s with c :: _ => Some (JString [c]) | [] => None end
  | JObject properties => own_property (js "0") properties
  | _ => None
  end.

(** [x?.p]: [undefined] when [x] is [null] or [undefined]. *)
Definition optional (p : json -> option json) (x : option json) : option json :=
  match x with
  | None | Some JNull => None
  | Some j => p j
  end.

(** How an expression or an awaited promise completes. *)
Inductive settled (A : Type) :=
| Fulfilled (a : A)
| Rejected.
Arguments Fulfilled {A} a.
Arguments Rejected {A}.

(** [openaiJson.choices?.[0]?.message?.content?.trim()] (line 121).
    [openaiJson.choices] throws on [null]; [.trim()] throws when the content
    is neither nullish nor a string. *)
Definition replyText (openaiJson : json) : settled (option jsstring) :=
  match openaiJson with
  | JNull => Rejected
  | _ =>
      match optional (property (js "content"))
              (optional (property (js "message"))
                 (optional index0 (property (js "choices") openaiJson))) with
      | None | Some JNull => Fulfilled None
      | Some (JString s) => Fulfilled (Some (trim s))
      | Some _ => Rejected
      end
  end.

(** ** Requests and responses *)

(** [req.body], the object the JSON body parser leaves, destructured into its
    three properties (line 33); [None] is a property that is not there. *)
Record chat_body := {
  receipt : option json;
  prompt : option json;
  model : option json
}.

Inductive res_body :=
| error (message : string)
| reply (text : jsstring).

(** [res.status(s).json(b)]; [res.json(b)] alone sends status 200. *)
Record response := {
  status : Z;
  body : res_body
}.

(** The two supported models, once line 42 has let the request through. *)
Inductive model_id :=
| Gpt35Turbo
| Gpt4.

#[global] Instance model_id_eq_dec : EqDecision model_id.
Proof. solve_decision. Defined.

Definition model_name (m : model_id) : jsstring :=
  match m with
  | Gpt35Turbo => js "gpt-3.5-turbo"
  | Gpt4 => js "gpt-4"
  end.

(** [["gpt-3.5-turbo", "gpt-4"].includes(model)] *)
Definition supported_model (model : option json) : option model_id :=
  match model with
  | Some (JString s) =>
      if decide (s = js "gpt-3.5-turbo") then Some Gpt35Turbo
      else if decide (s = js "gpt-4") then Some Gpt4
      else None
  | _ => None
  end.

(** [typeof v !== "string" || v.trim() === ""] *)
Definition blank (v : option json) : bool :=
  match v with
  | Some (JString s) => bool_decide (trim s = [])
  | _ => true
  end.

Definition text_of (v : option json) : jsstring :=
  match v with
  | Some (JString s) => s
  | _ => []
  end.

(** 1) Validate request fields (lines 36-44). *)
Definition validate (b : chat_body) : response + (jsstring * jsstring * model_id) :=
  if blank (receipt b) then
    inl {| status := 400; body := error "Missing or invalid receipt." |}
  else if blank (prompt b) then
    inl {| status := 400; body := error "Missing or empty prompt." |}
  else
    match supported_model (model b) with
    | None => inl {| status := 400; body := error "Invalid model requested." |}
    | Some m => inr (text_of (receipt b), text_of (prompt b), m)
    end.

(** ** Subscription entries *)

(** An element of [latest_receipt_info]. *)
Record entry := {
  product_id : value;
  original_transaction_id : value;
  expires_date_ms : value;
  purchase_date_ms : value
}.

#[global] Instance entry_eq_dec : EqDecision entry.
Proof. solve_decision. Defined.

(** What [verifyReceipt] resolves to: an object whose [latest_receipt_info],
    when present, is an array of entries. *)
Record appleResponse := {
  latest_receipt_info : option (list entry)
}.

(** Line 61. *)
Definition productID (model : model_id) : jsstring :=
  match model with
  | Gpt4 => js "com.omegaai.chat4"
  | Gpt35Turbo => js "com.omegaai.chat3"
  end.

(** [appleResponse.latest_receipt_info || []] *)
Definition inApp (r : appleResponse) : list entry :=
  match latest_receipt_info r with
  | Some entries => entries
  | None => []
  end.

(** The comparator of line 64, [None] being NaN. *)
Definition by_purchase_desc (a b : entry) : option Z :=
  match parseInt (purchase_date_ms b), parseInt (purchase_date_ms a) with
  | Some pb, Some pa => Some (pb - pa)
  | _, _ => None
  end.

(** [SortCompare] of ECMAScript: a NaN from the comparator counts as +0. *)
Definition SortCompare (a b : entry) : Z :=
  match by_purchase_desc a b with
  | Some v => v
  | None => 0
  end.

(** [Array.prototype.sort] is stable; as a stable insertion sort: an element
    goes in front of the first one it does not have to follow.  When every
    purchase time parses the comparator is consistent and every stable sort
    yields this very list ([sort_unique] below).  When one does not, the
    comparator is inconsistent, ECMAScript leaves the order to the engine and
    this list need not be the engine's: what depends on the order is stated
    for lists whose purchase times all parse. *)
Fixpoint insert_sorted (x : entry) (l : list entry) : list entry :=
  match l with
  | [] => [x]
  | y :: l' => if SortCompare x y <=? 0 then x :: y :: l' else y :: insert_sorted x l'
  end.

Fixpoint sort (l : list entry) : list entry :=
  match l with
  | [] => []
  | x :: l' => insert_sorted x (sort l')
  end.

(** [expiresMs > nowMs] (lines 69-71); a NaN compares false. *)
Definition unexpired (nowMs : Z) (e : entry) : bool :=
  match parseInt (expires_date_ms e) with
  | Some expiresMs => nowMs <? expiresMs
  | None => false
  end.

(** [entry.product_id === productID] *)
Definition for_product (pid : jsstring) (e : entry) : bool :=
  bool_decide (product_id e = VString pid).

(** The loop of lines 66-76.  [Date_now] gives the successive readings of
    the clock and [i] counts the readings taken so far: one per entry of the
    requested product. *)
Fixpoint validTransaction (Date_now : nat -> Z) (i : nat) (pid : jsstring)
    (l : list entry) : option entry :=
  match l with
  | [] => None
  | e :: l' =>
      if for_product pid e then
        if unexpired (Date_now i) e then Some e
        else validTransaction Date_now (S i) pid l'
      else validTransaction Date_now i pid l'
  end.

(** ** The usage tracker *)

(** [{ "gpt-3.5-turbo": count, "gpt-4": count }] *)
Record usage := {
  gpt35 : Z;
  gpt4 : Z
}.

Definition count_of (u : usage) (m : model_id) : Z :=
  match m with
  | Gpt35Turbo => gpt35 u
  | Gpt4 => gpt4 u
  end.

(** [u[model] += 1] *)
Definition increment (u : usage) (m : model_id) : usage :=
  match m with
  | Gpt35Turbo => {| gpt35 := gpt35 u + 1; gpt4 := gpt4 u |}
  | Gpt4 => {| gpt35 := gpt35 u; gpt4 := gpt4 u + 1 |}
  end.

Definition fresh_usage : usage := {| gpt35 := 0; gpt4 := 0 |}.

(** [usageTracker]: a [Map] keyed by the original transaction id. *)
Abbreviation tracker := (gmap value usage).

(** Lines 84-86. *)
Definition ensure_record (tid : value) (t : tracker) : tracker :=
  match t !! tid with
  | Some _ => t
  | None => <[tid := fresh_usage]> t
  end.

(** Lines 90-93. *)
Definition quotas (m : model_id) : Z :=
  match m with
  | Gpt35Turbo => 5000
  | Gpt4 => 800
  end.

(** The count a subscriber stands at: zero until the record exists. *)
Definition usage_count (t : tracker) (tid : value) (m : model_id) : Z :=
  match t !! tid with
  | Some u => count_of u m
  | None => 0
  end.

(** ** The outside world *)

(** [process.env.NODE_ENV === "production" ? "Production" : "Sandbox"] *)
Inductive environment :=
| Production
| Sandbox.

(** What [fetch] resolves to: the [ok] flag and the two ways line 115 and
    line 120 read the body. *)
Record openaiResponse := {
  ok : bool;
  text : settled jsstring;
  json_of : settled json
}.

(** What one request meets outside the handler: the process environment, the
    answers of the two services and the clock. *)
Record world := {
  production : bool;
  verifyReceipt : jsstring -> environment -> settled appleResponse;
  fetch : model_id -> jsstring -> settled openaiResponse;
  Date_now : nat -> Z
}.

Definition validationOptions (w : world) : environment :=
  if production w then Production else Sandbox.

(** The calls a request makes to the two services. *)
Inductive call :=
| CallVerifyReceipt (receipt : jsstring) (env : environment)
| CallFetch (model : model_id) (prompt : jsstring).

Definition is_fetch (c : call) : bool :=
  match c with
  | CallFetch _ _ => true
  | CallVerifyReceipt _ _ => false
  end.

Definition is_verify (c : call) : bool :=
  match c with
  | CallVerifyReceipt _ _ => true
  | CallFetch _ _ => false
  end.

(** ** The handler, stage by stage *)

Definition denied (message : string) : response :=
  {| status := 403; body := error message |}.

Definition failed (message : string) : response :=
  {| status := 500; body := error message |}.

(** The outer [catch] of line 133. *)
Definition internal_error : response := failed "Internal server error.".

(** 3) The entry that entitles the request (lines 61-76). *)
Definition entitlement (w : world) (model : model_id) (r : appleResponse) : option entry :=
  validTransaction (Date_now w) 0 (productID model) (sort (inApp r)).

(** 4) Quota enforcement (lines 83-96): the record is created when missing,
    then the count is compared with the ceiling.  On the right, the request
    goes on with the subscriber's id. *)
Definition enforce_quota (model : model_id) (e : entry) (t : tracker)
    : tracker * (response + value) :=
  let originalTransactionId := original_transaction_id e in
  let t' := ensure_record originalTransactionId t in
  match t' !! originalTransactionId with
  | None => (t', inl internal_error)
  | Some userUsage =>
      if quotas model <=? count_of userUsage model
      then (t', inl (denied "Monthly quota exceeded for this model."))
      else (t', inr originalTransactionId)
  end.

(** Lines 52-96, run when [verifyReceipt] has settled. *)
Definition authorize (w : world) (model : model_id) (verified : settled appleResponse)
    (t : tracker) : tracker * (response + value) :=
  match verified with
  | Rejected => (t, inl (denied "Failed to verify receipt."))
  | Fulfilled r =>
      match entitlement w model r with
      | None => (t, inl (denied "No active subscription for requested model."))
      | Some e => enforce_quota model e t
      end
  end.

(** 6) and 7) Lines 120-131, run when the reply's JSON has been read. *)
Definition commit (model : model_id) (originalTransactionId : value)
    (parsed : settled json) (t : tracker) : tracker * response :=
  match parsed with
  | Rejected => (t, internal_error)
  | Fulfilled openaiJson =>
      match replyText openaiJson with
      | Rejected => (t, internal_error)
      | Fulfilled None => (t, failed "Malformed response from OpenAI.")
      | Fulfilled (Some []) => (t, failed "Malformed response from OpenAI.")
      | Fulfilled (Some text) =>
          match t !! originalTransactionId with
          | None => (t, internal_error)
          | Some u =>
              (<[originalTransactionId := increment u model]> t,
               {| status := 200; body := reply text |})
          end
      end
  end.

(** Lines 114-118, when the completion service answered without success. *)
Definition upstream_failure (errorText : settled jsstring) : response :=
  match errorText with
  | Rejected => internal_error
  | Fulfilled _ => failed "Error communicating with OpenAI."
  end.

(** What handling one request leaves behind. *)
Record handled := {
  res : response;
  usageTracker : tracker;
  calls : list call
}.

(** [POST /chat], one request run from its first line to its response. *)
Definition chat (w : world) (b : chat_body) (t : tracker) : handled :=
  match validate b with
  | inl r => {| res := r; usageTracker := t; calls := [] |}
  | inr (receipt, prompt, model) =>
      let env := validationOptions w in
      let c1 := CallVerifyReceipt receipt env in
      match authorize w model (verifyReceipt w receipt env) t with
      | (t1, inl r) => {| res := r; usageTracker := t1; calls := [c1] |}
      | (t1, inr originalTransactionId) =>
          let c2 := CallFetch model (trim prompt) in
          match fetch w model (trim prompt) with
          | Rejected => {| res := internal_error; usageTracker := t1; calls := [c1; c2] |}
          | Fulfilled r =>
              if ok r then
                let '(t2, out) := commit model originalTransactionId (json_of r) t1 in
                {| res := out; usageTracker := t2; calls := [c1; c2] |}
              else
                {| res := upstream_failure (text r); usageTracker := t1; calls := [c1; c2] |}
          end
      end
  end.

(** Requests handled one after the other, each in its own world. *)
Fixpoint serve (requests : list (world * chat_body)) (t : tracker) : tracker :=
  match requests with
  | [] => t
  | (w, b) :: rest => serve rest (usageTracker (chat w b t))
  end.

(** ** Requests in flight *)

(** Where a request stands: not yet started, suspended at one of its
    [await]s, or answered. *)
Inductive pc :=
| Received (b : chat_body)
| AwaitVerifyReceipt (prompt : jsstring) (model : model_id) (receipt : jsstring)
| AwaitFetch (prompt : jsstring) (model : model_id) (originalTransactionId : value)
| AwaitText (r : openaiResponse)
| AwaitJson (model : model_id) (originalTransactionId : value) (r : openaiResponse)
| Responded (r : response).

(** One run of the handler between two suspensions: nothing else touches
    [usageTracker] meanwhile. *)
Definition step (w : world) (p : pc) (t : tracker) : tracker * pc :=
  match p with
  | Received b =>
      match validate b with
      | inl r => (t, Responded r)
      | inr (receipt, prompt, model) => (t, AwaitVerifyReceipt prompt model receipt)
      end
  | AwaitVerifyReceipt prompt model receipt =>
      match authorize w model (verifyReceipt w receipt (validationOptions w)) t with
      | (t1, inl r) => (t1, Responded r)
      | (t1, inr originalTransactionId) => (t1, AwaitFetch prompt model originalTransactionId)
      end
  | AwaitFetch prompt model originalTransactionId =>
      match fetch w model (trim prompt) with
      | Rejected => (t, Responded internal_error)
      | Fulfilled r =>
          if ok r then (t, AwaitJson model originalTransactionId r)
          else (t, AwaitText r)
      end
  | AwaitText r => (t, Responded (upstream_failure (text r)))
  | AwaitJson model originalTransactionId r =>
      let '(t2, out) := commit model originalTransactionId (json_of r) t in
      (t2, Responded out)
  | Responded r => (t, Responded r)
  end.

(** The server: the shared tracker and the requests in flight. *)
Record server := {
  store : tracker;
  inflight : list (world * pc)
}.

(** The event loop resumes request [i]. *)
Definition resume (i : nat) (s : server) : server :=
  match inflight s !! i with
  | None => s
  | Some (w, p) =>
      let '(t', p') := step w p (store s) in
      {| store := t'; inflight := <[i := (w, p')]> (inflight s) |}
  end.

(** A schedule: which request the event loop resumes, turn after turn. *)
Fixpoint run (schedule : list nat) (s : server) : server :=
  match schedule with
  | [] => s
  | i :: rest => run rest (resume i s)
  end.

(** The request has passed the quota check for [tid] and [m] and has not
    yet committed or failed. *)
Definition checked_for (tid : value) (m : model_id) (p : pc) : bool :=
  match p with
  | AwaitFetch _ m' tid' => bool_decide (m' = m /\ tid' = tid)
  | AwaitJson m' tid' _ => bool_decide (m' = m /\ tid' = tid)
  | _ => false
  end.

(** ** How a request fares *)

(** The three ways a request is denied access. *)
Inductive reason :=
| ReceiptVerificationFailed
| NoActiveSubscription
| QuotaExceeded.

Definition message_of (k : reason) : string :=
  match k with
  | ReceiptVerificationFailed => "Failed to verify receipt."
  | NoActiveSubscription => "No active subscription for requested model."
  | QuotaExceeded => "Monthly quota exceeded for this model."
  end.

(** The request is valid, its receipt verifies and entry [e] entitles it. *)
Definition entitled (w : world) (b : chat_body) (prompt : jsstring) (model : model_id)
    (e : entry) : Prop :=
  exists receipt r,
    validate b = inr (receipt, prompt, model) /\
    verifyReceipt w receipt (validationOptions w) = Fulfilled r /\
    entitlement w model r = Some e.

(** The request is valid and is then denied for reason [k]. *)
Definition rejected_with (w : world) (b : chat_body) (t : tracker) (k : reason) : Prop :=
  exists receipt prompt model,
    validate b = inr (receipt, prompt, model) /\
    match k with
    | ReceiptVerificationFailed =>
        verifyReceipt w receipt (validationOptions w) = Rejected
    | NoActiveSubscription =>
        exists r, verifyReceipt w receipt (validationOptions w) = Fulfilled r /\
                  entitlement w model r = None
    | QuotaExceeded =>
        exists e, entitled w b prompt model e /\
                  quotas model <= usage_count t (original_transaction_id e) model
    end.

(** No call to the completion service, respectively to the verifier. *)
Definition no_fetch (l : list call) : Prop := forallb (fun c => negb (is_fetch c)) l = true.
Definition no_verify (l : list call) : Prop := forallb (fun c => negb (is_verify c)) l = true.

(** What the completion stage makes of the upstream answer. *)
Definition forwarded (model : model_id) (tid : value) (answer : settled openaiResponse)
    (t : tracker) : tracker * response :=
  match answer with
  | Rejected => (t, internal_error)
  | Fulfilled r =>
      if ok r then commit model tid (json_of r) t
      else (t, upstream_failure (text r))
  end.

(** ** Order of the entries *)

(** Entry [e] was purchased at epoch millisecond [p]. *)
Definition purchased_at (e : entry) (p : Z) : Prop := parseInt (purchase_date_ms e) = Some p.

(** [a] was purchased no earlier than [b]. *)
Definition not_before (a b : entry) : Prop :=
  exists pa pb, purchased_at a pa /\ purchased_at b pb /\ pb <= pa.

(** Every entry carries a purchase time that parses. *)
Definition dated (l : list entry) : Prop :=
  Forall (fun e => exists p, purchased_at e p) l.

(** The entries purchased at [p], in the order of [l]. *)
Fixpoint purchased (p : Z) (l : list entry) : list entry :=
  match l with
  | [] => []
  | e :: l' =>
      if decide (parseInt (purchase_date_ms e) = Some p)
      then e :: purchased p l' else purchased p l'
  end.

(** The clock readings the loop takes while it passes over [l]: one per entry
    of the product. *)
Fixpoint readings (pid : jsstring) (l : list entry) : nat :=
  match l with
  | [] => O
  | e :: l' => ((if for_product pid e then 1 else 0) + readings pid l')%nat
  end.

(** ** The tracker over time *)

(** What one operation may do to the record of one subscriber: nothing,
    create it with zero counts, or add one to one of its counts. *)
Inductive touched : option usage -> option usage -> Prop :=
| touched_same (o : option usage) : touched o o
| touched_created : touched None (Some fresh_usage)
| touched_incremented (u : usage) (m : model_id) : touched (Some u) (Some (increment u m)).

(** The record of one subscriber before and after: it is not removed, no
    count of it goes down, and a record that appears has no negative count. *)
Definition record_le (o o' : option usage) : Prop :=
  match o, o' with
  | Some u, Some u' => forall m, count_of u m <= count_of u' m
  | Some _, None => False
  | None, Some u' => forall m, 0 <= count_of u' m
  | None, None => True
  end.

(** Every record of [t] is still in [t'], with counts at least as high. *)
Definition grows (t t' : tracker) : Prop :=
  forall tid, record_le (t !! tid) (t' !! tid).

(** How many requests in flight have passed the quota check for [tid] and
    [m] and not yet come back from the completion service. *)
Fixpoint checked (tid : value) (m : model_id) (l : list (world * pc)) : Z :=
  match l with
  | [] => 0
  | (_, p) :: l' => (if checked_for tid m p then 1 else 0) + checked tid m l'
  end.

(** Requests that have just arrived. *)
Definition arriving (requests : list (world * chat_body)) : list (world * pc) :=
  map (fun wb => (wb.1, Received wb.2)) requests.

(** ** Sample requests *)

Definition T1 : value := VString (js "T1").

Definition subscription (product expires purchase : string) : entry :=
  {| product_id := VString (js product);
     original_transaction_id := T1;
     expires_date_ms := VString (js expires);
     purchase_date_ms := VString (js purchase) |}.

Definition request (m : string) : chat_body :=
  {| receipt := Some (JString (js "cmVjZWlwdA=="));
     prompt := Some (JString (js "Hello"));
     model := Some (JString (js m)) |}.

(** A completion whose first choice carries [content]. *)
Definition completion (content : string) : json :=
  JObject [(js "id", JString (js "chatcmpl-1"));
           (js "choices",
            JArray [JObject [(js "index", JNumber 0);
                             (js "message",
                              JObject [(js "role", JString (js "assistant"));
                                       (js "content", JString (js content))])]])].

Definition answers (content : string) : settled openaiResponse :=
  Fulfilled {| ok := true; text := Fulfilled (js content);
               json_of := Fulfilled (completion content) |}.

(** A world at epoch millisecond [now] with the given answers. *)
Definition sample_world (verified : settled appleResponse)
    (answer : settled openaiResponse) (now : Z) : world :=
  {| production := false;
     verifyReceipt := fun _ _ => verified;
     fetch := fun _ _ => answer;
     Date_now := fun _ => now |}.

Definition receipt_with (entries : list entry) : settled appleResponse :=
  Fulfilled {| latest_receipt_info := Some entries |}.

(** A tracker in which [T1] stands at [n] premium calls. *)
Definition premium_at (n : Z) : tracker := {[ T1 := {| gpt35 := 0; gpt4 := n |} ]}.

(** A premium subscription of [T1], unexpired at the time of the request. *)
Definition premium_world : world :=
  sample_world (receipt_with [subscription "com.omegaai.chat4" "2000" "1000"])
    (answers "Hi there") 1500.

(** Two premium requests of [T1] arrive while it stands at [n] calls. *)
Definition two_premium_requests (n : Z) : server :=
  {| store := premium_at n;
     inflight := arriving [(premium_world, request "gpt-4");
                           (premium_world, request "gpt-4")] |}.

(** No interleaving of the requests of [s] takes a count that is within its
    ceiling beyond it. *)
Definition ceiling_respected (s : server) : Prop :=
  forall schedule tid m,
    usage_count (store s) tid m <= quotas m ->
    usage_count (store (run schedule s)) tid m <= quotas m.

(** ** Strings without blanks at the ends *)

(** [s] does not begin with white space. *)
Definition clean_start (s : jsstring) : Prop :=
  match s with
  | [] => True
  | c :: _ => is_white_space c = false
  end.

(** [s] neither begins nor ends with white space. *)
Definition clean (s : jsstring) : Prop := clean_start s /\ clean_start (rev s).

(** ** Decimal numerals *)

(** The integer that the digits [d] make of the integer [acc] read so far. *)
Fixpoint decimal_value (d : Decimal.uint) (acc : Z) : Z :=
  match d with
  | Decimal.Nil => acc
  | Decimal.D0 d' => decimal_value d' (acc * 10 + 0)
  | Decimal.D1 d' => decimal_value d' (acc * 10 + 1)
  | Decimal.D2 d' => decimal_value d' (acc * 10 + 2)
  | Decimal.D3 d' => decimal_value d' (acc * 10 + 3)
  | Decimal.D4 d' => decimal_value d' (acc * 10 + 4)
  | Decimal.D5 d' => decimal_value d' (acc * 10 + 5)
  | Decimal.D6 d' => decimal_value d' (acc * 10 + 6)
  | Decimal.D7 d' => decimal_value d' (acc * 10 + 7)
  | Decimal.D8 d' => decimal_value d' (acc * 10 + 8)
  | Decimal.D9 d' => decimal_value d' (acc * 10 + 9)
  end.

(** A code unit that is a decimal digit. *)
Definition is_decimal_digit (c : N) : Prop := (48 <= c <= 57)%N.

(** ** Who a request counts for *)

(** The subscriber and the model a request is entitled for, when it passes
    validation, verification and entitlement matching (lines 36-80). *)
Definition subscriber_of (w : world) (b : chat_body) : option (value * model_id) :=
  match validate b with
  | inl _ => None
  | inr (receipt, prompt, model) =>
      match verifyReceipt w receipt (validationOptions w) with
      | Rejected => None
      | Fulfilled r =>
          match entitlement w model r with
          | Some e => Some (original_transaction_id e, model)
          | None => None
          end
      end
  end.

(** How many of the [requests], handled in turn from tracker [t], are requests
    of [tid] for [m] that get a reply. *)
Fixpoint replies (tid : value) (m : model_id) (requests : list (world * chat_body))
    (t : tracker) : Z :=
  match requests with
  | [] => 0
  | (w, b) :: rest =>
      (if bool_decide (subscriber_of w b = Some (tid, m) /\
                       status (res (chat w b t)) = 200)
       then 1 else 0)
      + replies tid m rest (usageTracker (chat w b t))
  end.

(** ** Turns of the event loop *)

(** The runs of the handler a request still needs before it is answered. *)
Definition turns_left (p : pc) : nat :=
  match p with
  | Received _ => 4
  | AwaitVerifyReceipt _ _ _ => 3
  | AwaitFetch _ _ _ => 2
  | AwaitText _ => 1
  | AwaitJson _ _ _ => 1
  | Responded _ => 0
  end.

(** The turns a schedule gives to request [i]. *)
Fixpoint turns (i : nat) (schedule : list nat) : nat :=
  match schedule with
  | [] => O
  | j :: rest => ((if decide (j = i) then 1 else 0) + turns i rest)%nat
  end.

(** The schedule that completes requests [k], [k+1], ..., [k+n-1] one after
    the other. *)
Fixpoint sequential (k n : nat) : list nat :=
  match n with
  | O => []
  | S n' => [k; k; k; k] ++ sequential (S k) n'
  end.

(** The requests once handled in turn from tracker [t], each with its answer. *)
Fixpoint answered (requests : list (world * chat_body)) (t : tracker) : list (world * pc) :=
  match requests with
  | [] => []
  | (w, b) :: rest =>
      (w, Responded (res (chat w b t))) :: answered rest (usageTracker (chat w b t))
  end.

(** ** Process start (lines 8-20 and 146-150) *)

(** [process.env], once [dotenv] has loaded its file. *)
Abbreviation environ := (gmap string string).

(** A variable is truthy when it is set and not the empty string. *)
Definition set_in (env : environ) (name : string) : bool :=
  match env !! name with
  | Some value => negb (bool_decide (value = ""%string))
  | None => false
  end.

(** How the start of the process ends: [process.exit] after a message on the
    error console, or [app.listen] on a port taken from the environment (a
    string) or the default 3000. *)
Inductive boot :=
| Exit (code : Z) (message : string)
| Listen (PORT : string + Z).

Definition startup (env : environ) : boot :=
  if negb (set_in env "APPLE_SHARED_SECRET") then
    Exit 1 "❌ Missing APPLE_SHARED_SECRET in environment variables!"
  else if negb (set_in env "OPENAI_API_KEY") then
    Exit 1 "❌ Missing OPENAI_API_KEY in environment variables!"
  else
    Listen (match env !! "PORT"%string with
            | Some value => if bool_decide (value = ""%string) then inr 3000 else inl value
            | None => inr 3000
            end).

(** ** The earlier proxy ([src/unnamed/part_000]) *)

Module Proxy.

(** [x.p] without [?.]: a [TypeError] when [x] is [null] or [undefined]. *)
Definition member (p : json -> option json) (x : option json) : settled (option json) :=
  match x with
  | None | Some JNull => Rejected
  | Some j => Fulfilled (p j)
  end.

(** [response.data.choices[0].message.content] (line 38). *)
Definition aiReply (data : json) : settled (option json) :=
  match member (property (js "choices")) (Some data) with
  | Rejected => Rejected
  | Fulfilled choices =>
      match member index0 choices with
      | Rejected => Rejected
      | Fulfilled first =>
          match member (property (js "message")) first with
          | Rejected => Rejected
          | Fulfilled message => member (property (js "content")) message
          end
      end
  end.

(** The document posted to the completion service (lines 26-29); a property
    whose value is [undefined] is left out when the document is serialised. *)
Definition payload (userMessage : option json) : json :=
  JObject [(js "model", JString (js "gpt-3.5-turbo"));
           (js "messages",
            JArray [JObject ((js "role", JString (js "user")) ::
                             match userMessage with
                             | Some v => [(js "content", v)]
                             | None => []
                             end)])].

Inductive res_body :=
| error (message : string)
| reply (aiReply : option json).

Record response := {
  status : Z;
  body : res_body
}.

Record handled := {
  res : response;
  posted : list json
}.

(** [POST /chat] (lines 20-44): [userMessage] is [req.body.message] of the
    object the body parser leaves, [post] is [axios.post], which rejects on a
    transport error and on a status outside 2xx and otherwise resolves to the
    parsed body.  Whatever is thrown inside the [try] ends in the [catch]. *)
Definition chat (post : json -> settled json) (userMessage : option json) : handled :=
  let sent := payload userMessage in
  match post sent with
  | Rejected =>
      {| res := {| status := 500; body := error "Error communicating with OpenAI" |};
         posted := [sent] |}
  | Fulfilled data =>
      match aiReply data with
      | Rejected =>
          {| res := {| status := 500; body := error "Error communicating with OpenAI" |};
             posted := [sent] |}
      | Fulfilled content =>
          {| res := {| status := 200; body := reply content |}; posted := [sent] |}
      end
  end.

End Proxy.

(** ** Entries as the properties speak of them *)

(** [e] is an entry of product [pid]. *)
Definition of_product (pid : jsstring) (e : entry) : Prop := product_id e = VString pid.

(** The expiration of [e] parses to a time strictly after [nowMs]. *)
Definition expires_after (nowMs : Z) (e : entry) : Prop :=
  exists expiresMs, parseInt (expires_date_ms e) = Some expiresMs /\ nowMs < expiresMs.

(** The entries of product [pid] in [l], counted from the fields alone. *)
Fixpoint product_entries (pid : jsstring) (l : list entry) : nat :=
  match l with
  | [] => O
  | e :: l' =>
      ((if decide (product_id e = VString pid) then 1 else 0) + product_entries pid l')%nat
  end.

(** Every entry carries a purchase time that parses, and every time that
    parses, purchase or expiration, is an integer of magnitude below 2^53:
    the range in which the numbers of the code are exact, so that the
    comparator of line 64 is consistent and every stable sort agrees with
    [sort]. *)
Definition well_dated (l : list entry) : Prop :=
  Forall (fun e =>
            (exists p, purchased_at e p /\ Z.abs p < 2 ^ 53) /\
            (forall x, parseInt (expires_date_ms e) = Some x -> Z.abs x < 2 ^ 53)) l.

(** ** Answers under interleaving *)

(** Resuming request [i] answers, with status 200, a request that was
    waiting for the completion of subscriber [tid] and model [m]. *)
Definition commits_at (tid : value) (m : model_id) (i : nat) (s : server) : bool :=
  match inflight s !! i, inflight (resume i s) !! i with
  | Some (_, AwaitJson m' tid' _), Some (_, Responded r) =>
      bool_decide (m' = m /\ tid' = tid /\ status r = 200)
  | _, _ => false
  end.

(** How many such answers a schedule brings. *)
Fixpoint commits (tid : value) (m : model_id) (schedule : list nat) (s : server) : Z :=
  match schedule with
  | [] => 0
  | i :: rest => (if commits_at tid m i s then 1 else 0) + commits tid m rest (resume i s)
  end.

(** * Properties *)

(** ** Strings and numbers at work *)

Example parseInt_ms : parseInt (VString (js "1700000000000")) = Some 1700000000000.
Proof. reflexivity. Qed.

Example parseInt_padded : parseInt (VString (js "  -42abc")) = Some (-42).
Proof. reflexivity. Qed.

Example parseInt_hex : parseInt (VString (js "0x1F")) = Some 31.
Proof. reflexivity. Qed.

Example parseInt_number : parseInt (VNumber 1700000000000) = Some 1700000000000.
Proof. reflexivity. Qed.

Example parseInt_absent : parseInt VUndefined = None.
Proof. reflexivity. Qed.

Example parseInt_null : parseInt VNull = None.
Proof. reflexivity. Qed.

Example parseInt_words : parseInt (VString (js "soon")) = None.
Proof. reflexivity. Qed.

Example trim_both : trim (js "  Hi there ") = js "Hi there".
Proof. reflexivity. Qed.

Example trim_blank : trim [32; 9; 10; 160; 65279]%N = [].
Proof. reflexivity. Qed.

Example replyText_completion : replyText (completion " Hi there ") = Fulfilled (Some (js "Hi there")).
Proof. reflexivity. Qed.

Example replyText_no_choices : replyText (JObject [(js "error", JString (js "busy"))]) = Fulfilled None.
Proof. reflexivity. Qed.

Example replyText_null : replyText JNull = Rejected.
Proof. reflexivity. Qed.

Example replyText_number :
  replyText (JObject [(js "choices",
              JArray [JObject [(js "message", JObject [(js "content", JNumber 5)])]])])
  = Rejected.
Proof. reflexivity. Qed.

(** ** The tracker under the handler's operations *)

Lemma ensure_record_lookup (tid : value) (t : tracker) :
  ensure_record tid t !! tid = Some (default fresh_usage (t !! tid)).
Proof.
  unfold ensure_record. destruct (t !! tid) as [u|] eqn:E; simpl.
  - exact E.
  - apply lookup_insert_eq.
Qed.

Lemma ensure_record_other (tid k : value) (t : tracker) :
  k <> tid -> ensure_record tid t !! k = t !! k.
Proof.
  intros Hne. unfold ensure_record. destruct (t !! tid); [reflexivity|].
  apply lookup_insert_ne. congruence.
Qed.

Lemma ensure_record_count (tid k : value) (m : model_id) (t : tracker) :
  usage_count (ensure_record tid t) k m = usage_count t k m.
Proof.
  unfold usage_count. destruct (decide (k = tid)) as [->|Hne].
  - rewrite ensure_record_lookup. destruct (t !! tid); simpl; [reflexivity|].
    destruct m; reflexivity.
  - rewrite ensure_record_other by assumption. reflexivity.
Qed.

Lemma ensure_record_keeps (tid k : value) (u : usage) (t : tracker) :
  t !! k = Some u -> ensure_record tid t !! k = Some u.
Proof.
  intros Hk. destruct (decide (k = tid)) as [->|Hne].
  - rewrite ensure_record_lookup, Hk. reflexivity.
  - rewrite ensure_record_other by assumption. exact Hk.
Qed.

Lemma count_of_increment (u : usage) (m m' : model_id) :
  count_of (increment u m) m' = if decide (m' = m) then count_of u m' + 1 else count_of u m'.
Proof. destruct m, m'; reflexivity. Qed.

(** The quota stage in terms of the count the subscriber stands at. *)
Lemma enforce_quota_spec (model : model_id) (e : entry) (t : tracker) :
  enforce_quota model e t =
    let tid := original_transaction_id e in
    (ensure_record tid t,
     if quotas model <=? usage_count t tid model
     then inl (denied "Monthly quota exceeded for this model.")
     else inr tid).
Proof.
  unfold enforce_quota. cbv zeta. rewrite ensure_record_lookup.
  unfold usage_count. destruct (t !! original_transaction_id e) as [u|]; simpl.
  - destruct (quotas model <=? count_of u model); reflexivity.
  - replace (count_of fresh_usage model) with 0 by (destruct model; reflexivity).
    destruct (quotas model <=? 0); reflexivity.
Qed.

(** ** The handler, path by path *)

Lemma chat_invalid (w : world) (b : chat_body) (t : tracker) (r : response) :
  validate b = inl r ->
  chat w b t = {| res := r; usageTracker := t; calls := [] |}.
Proof. intros H. unfold chat. rewrite H. reflexivity. Qed.

Lemma chat_unverified (w : world) (b : chat_body) (t : tracker) receipt prompt model :
  validate b = inr (receipt, prompt, model) ->
  verifyReceipt w receipt (validationOptions w) = Rejected ->
  chat w b t = {| res := denied "Failed to verify receipt."; usageTracker := t;
                  calls := [CallVerifyReceipt receipt (validationOptions w)] |}.
Proof. intros Hv Hr. unfold chat. rewrite Hv. cbv zeta. rewrite Hr. reflexivity. Qed.

Lemma chat_unsubscribed (w : world) (b : chat_body) (t : tracker) receipt prompt model r :
  validate b = inr (receipt, prompt, model) ->
  verifyReceipt w receipt (validationOptions w) = Fulfilled r ->
  entitlement w model r = None ->
  chat w b t = {| res := denied "No active subscription for requested model.";
                  usageTracker := t;
                  calls := [CallVerifyReceipt receipt (validationOptions w)] |}.
Proof.
  intros Hv Hr He. unfold chat. rewrite Hv. cbv zeta. rewrite Hr. simpl.
  rewrite He. reflexivity.
Qed.

Lemma chat_entitled (w : world) (b : chat_body) (t : tracker) receipt prompt model r e :
  validate b = inr (receipt, prompt, model) ->
  verifyReceipt w receipt (validationOptions w) = Fulfilled r ->
  entitlement w model r = Some e ->
  let tid := original_transaction_id e in
  let c1 := CallVerifyReceipt receipt (validationOptions w) in
  chat w b t =
    if quotas model <=? usage_count t tid model
    then {| res := denied "Monthly quota exceeded for this model.";
            usageTracker := ensure_record tid t; calls := [c1] |}
    else
      let out := forwarded model tid (fetch w model (trim prompt)) (ensure_record tid t) in
      {| res := out.2; usageTracker := out.1;
         calls := [c1; CallFetch model (trim prompt)] |}.
Proof.
  intros Hv Hr He tid c1. unfold chat. rewrite Hv. cbv zeta. rewrite Hr. simpl.
  rewrite He, enforce_quota_spec. cbv zeta. fold tid.
  destruct (quotas model <=? usage_count t tid model); [reflexivity|].
  unfold forwarded. destruct (fetch w model (trim prompt)) as [o|]; [|reflexivity].
  destruct (ok o); [|reflexivity].
  destruct (commit model tid (json_of o) (ensure_record tid t)); reflexivity.
Qed.

(** ** Request validation *)

Lemma blank_spec (v : option json) :
  blank v = true <-> (forall s, v = Some (JString s) -> trim s = []).
Proof.
  destruct v as [[| | |s| |]|]; simpl; split; try discriminate; try reflexivity;
    try (intros _ s' H; discriminate H).
  - intros H s' [= <-]. apply bool_decide_eq_true in H. exact H.
  - intros H. apply bool_decide_eq_true. apply H. reflexivity.
Qed.

Lemma supported_model_spec (v : option json) (m : model_id) :
  supported_model v = Some m <-> v = Some (JString (model_name m)).
Proof.
  split.
  - destruct v as [[| | |s| |]|]; simpl; try discriminate.
    repeat case_decide; intros [= <-]; subst; reflexivity.
  - intros ->. destruct m; reflexivity.
Qed.

Lemma supported_model_none (v : option json) :
  supported_model v = None <-> (forall m, v <> Some (JString (model_name m))).
Proof.
  split.
  - intros H m Hm. apply supported_model_spec in Hm. congruence.
  - intros H. destruct (supported_model v) as [m|] eqn:E; [|reflexivity].
    apply supported_model_spec in E. destruct (H m E).
Qed.

(** A request passes validation exactly when its three fields are in order,
    and the handler then works with the receipt and the prompt as sent. *)
Lemma validate_passes (b : chat_body) (rcpt prmt : jsstring) (mdl : model_id) :
  validate b = inr (rcpt, prmt, mdl) <->
  (receipt b = Some (JString rcpt) /\ trim rcpt <> []) /\
  (prompt b = Some (JString prmt) /\ trim prmt <> []) /\
  model b = Some (JString (model_name mdl)).
Proof.
  unfold validate. split.
  - destruct (blank (receipt b)) eqn:E1; [discriminate|].
    destruct (blank (prompt b)) eqn:E2; [discriminate|].
    destruct (supported_model (model b)) as [m|] eqn:E3; [|discriminate].
    intros [= <- <- <-]. apply supported_model_spec in E3.
    destruct (receipt b) as [[| | |s1| |]|]; try discriminate E1.
    destruct (prompt b) as [[| | |s2| |]|]; try discriminate E2.
    simpl in *. apply bool_decide_eq_false in E1, E2. auto.
  - intros ((-> & H1) & (-> & H2) & ->). simpl.
    rewrite !bool_decide_eq_false_2 by assumption.
    destruct mdl; reflexivity.
Qed.

(** C5. A request body whose receipt is not a string that is non-empty after
    trimming, or whose prompt is not, or whose model is not one of the two
    supported models, is answered with status 400 and a message naming a field
    that is at fault, and the receipt verifier is not called (nor is anything
    else: no call is made and the usage tracker is untouched). *)
Theorem invalid_request_rejected (w : world) (b : chat_body) (t : tracker) :
  (forall s, receipt b = Some (JString s) -> trim s = []) \/
  (forall s, prompt b = Some (JString s) -> trim s = []) \/
  (forall m, model b <> Some (JString (model_name m))) ->
  status (res (chat w b t)) = 400 /\
  ((body (res (chat w b t)) = error "Missing or invalid receipt." /\
    (forall s, receipt b = Some (JString s) -> trim s = [])) \/
   (body (res (chat w b t)) = error "Missing or empty prompt." /\
    (forall s, prompt b = Some (JString s) -> trim s = [])) \/
   (body (res (chat w b t)) = error "Invalid model requested." /\
    (forall m, model b <> Some (JString (model_name m))))) /\
  no_verify (calls (chat w b t)) /\
  calls (chat w b t) = [] /\
  usageTracker (chat w b t) = t.
Proof.
  intros H.
  assert (Hbad : blank (receipt b) = true \/ blank (prompt b) = true \/
                 supported_model (model b) = None).
  { rewrite !blank_spec, supported_model_none. exact H. }
  clear H. unfold chat, validate.
  destruct (blank (receipt b)) eqn:E1.
  { pose proof (proj1 (blank_spec _) E1). simpl.
    split; [reflexivity|]. split; [left; split; [reflexivity|assumption]|].
    repeat split. }
  destruct (blank (prompt b)) eqn:E2.
  { pose proof (proj1 (blank_spec _) E2). simpl.
    split; [reflexivity|]. split; [right; left; split; [reflexivity|assumption]|].
    repeat split. }
  destruct (supported_model (model b)) as [m|] eqn:E3.
  { destruct Hbad as [?|[?|?]]; discriminate. }
  pose proof (proj1 (supported_model_none _) E3). simpl.
  split; [reflexivity|]. split; [right; right; split; [reflexivity|assumption]|].
  repeat split.
Qed.

Lemma invalid_request_rejected_witness :
  let w := sample_world Rejected Rejected 0 in
  ((forall s, receipt (request "gpt-5") = Some (JString s) -> trim s = []) \/
   (forall s, prompt (request "gpt-5") = Some (JString s) -> trim s = []) \/
   (forall m, model (request "gpt-5") <> Some (JString (model_name m)))) /\
  status (res (chat w (request "gpt-5") ∅)) = 400 /\
  body (res (chat w (request "gpt-5") ∅)) = error "Invalid model requested." /\
  calls (chat w (request "gpt-5") ∅) = [].
Proof.
  intros w.
  assert (Hm : (forall s, receipt (request "gpt-5") = Some (JString s) -> trim s = []) \/
               (forall s, prompt (request "gpt-5") = Some (JString s) -> trim s = []) \/
               (forall m, model (request "gpt-5") <> Some (JString (model_name m)))).
  { right; right. intros m. destruct m; vm_compute; discriminate. }
  split; [exact Hm|].
  destruct (invalid_request_rejected w (request "gpt-5") ∅ Hm) as (Hs & _ & _ & Hc & _).
  split; [exact Hs|]. split; [reflexivity|exact Hc].
Defined.

(** ** Receipt verification *)

(** C6. Whenever the verifier fails (its promise rejects, whatever the cause),
    the request is denied with status 403 and the message for a failed
    verification, the completion service is not called, and the tracker is
    untouched. *)
Theorem verification_failure_denied (w : world) (b : chat_body) (t : tracker)
    (rcpt prmt : jsstring) (mdl : model_id) :
  validate b = inr (rcpt, prmt, mdl) ->
  verifyReceipt w rcpt (validationOptions w) = Rejected ->
  res (chat w b t) = {| status := 403; body := error "Failed to verify receipt." |} /\
  calls (chat w b t) = [CallVerifyReceipt rcpt (validationOptions w)] /\
  no_fetch (calls (chat w b t)) /\
  usageTracker (chat w b t) = t.
Proof.
  intros Hv Hr. rewrite (chat_unverified w b t rcpt prmt mdl Hv Hr). simpl.
  repeat split.
Qed.

Lemma verification_failure_denied_witness :
  let w := sample_world Rejected (answers "Hi there") 0 in
  validate (request "gpt-4") = inr (js "cmVjZWlwdA==", js "Hello", Gpt4) /\
  verifyReceipt w (js "cmVjZWlwdA==") (validationOptions w) = Rejected /\
  res (chat w (request "gpt-4") ∅) =
    {| status := 403; body := error "Failed to verify receipt." |} /\
  no_fetch (calls (chat w (request "gpt-4") ∅)).
Proof.
  intros w. split; [reflexivity|]. split; [reflexivity|].
  destruct (verification_failure_denied w (request "gpt-4") ∅
              (js "cmVjZWlwdA==") (js "Hello") Gpt4 eq_refl eq_refl) as (H1 & _ & H3 & _).
  split; [exact H1|exact H3].
Defined.

(** ** The completion stage *)

Lemma commit_cases (mdl : model_id) (tid : value) (parsed : settled json) (t : tracker) :
  (exists r, commit mdl tid parsed t = (t, r) /\ status r = 500) \/
  (exists j txt u,
      parsed = Fulfilled j /\ replyText j = Fulfilled (Some txt) /\ txt <> [] /\
      t !! tid = Some u /\
      commit mdl tid parsed t =
        (<[tid := increment u mdl]> t, {| status := 200; body := reply txt |})).
Proof.
  unfold commit. destruct parsed as [j|]; [|left; eexists; split; reflexivity].
  destruct (replyText j) as [[[|c txt]|]|] eqn:E;
    try (left; eexists; split; reflexivity).
  destruct (t !! tid) as [u|] eqn:Et; [|left; eexists; split; reflexivity].
  right. exists j, (c :: txt), u. repeat split; try assumption. discriminate.
Qed.

Lemma forwarded_cases (mdl : model_id) (tid : value) (answer : settled openaiResponse)
    (t : tracker) :
  (exists r, forwarded mdl tid answer t = (t, r) /\ status r = 500) \/
  (exists o j txt u,
      answer = Fulfilled o /\ ok o = true /\ json_of o = Fulfilled j /\
      replyText j = Fulfilled (Some txt) /\ txt <> [] /\ t !! tid = Some u /\
      forwarded mdl tid answer t =
        (<[tid := increment u mdl]> t, {| status := 200; body := reply txt |})).
Proof.
  unfold forwarded. destruct answer as [o|]; [|left; eexists; split; reflexivity].
  destruct (ok o) eqn:Eok.
  - destruct (commit_cases mdl tid (json_of o) t) as [(r & Hc & Hs)|(j & txt & u & H)].
    + left. exists r. split; assumption.
    + right. exists o, j, txt, u. destruct H as (? & ? & ? & ? & ?). repeat split; assumption.
  - left. eexists. split; [reflexivity|]. destruct (text o); reflexivity.
Qed.

(** Committing one unit of usage moves exactly one count, by one. *)
Lemma usage_count_commit (t : tracker) (tid k : value) (u : usage) (mdl m : model_id) :
  t !! tid = Some u ->
  usage_count (<[tid := increment u mdl]> t) k m =
    if decide (k = tid /\ m = mdl) then usage_count t k m + 1 else usage_count t k m.
Proof.
  intros Hu. unfold usage_count. destruct (decide (k = tid)) as [->|Hne].
  - rewrite lookup_insert_eq, Hu, count_of_increment.
    repeat case_decide; try reflexivity; tauto.
  - rewrite lookup_insert_ne by congruence. case_decide; [tauto|reflexivity].
Qed.

(** ** Quota enforcement *)

Lemma forwarded_status (mdl : model_id) (tid : value) (answer : settled openaiResponse)
    (t : tracker) :
  status (forwarded mdl tid answer t).2 <> 403.
Proof.
  destruct (forwarded_cases mdl tid answer t) as [(r & -> & Hs)|(o & j & txt & u & H)].
  - simpl. rewrite Hs. discriminate.
  - destruct H as (_ & _ & _ & _ & _ & _ & ->). simpl. discriminate.
Qed.

(** C1. For a valid request whose receipt verifies and which entry [e]
    entitles, the count of [e]'s subscriber for the requested model is
    compared with the ceiling of that model (5000 for gpt-3.5-turbo, 800 for
    gpt-4): the request is denied with status 403 and the quota message exactly
    when the count has reached the ceiling, in which case the completion
    service is not called and no count moves; below the ceiling the completion
    service is called and the answer is no denial. *)
Theorem quota_check (w : world) (b : chat_body) (t : tracker)
    (prmt : jsstring) (mdl : model_id) (e : entry) :
  entitled w b prmt mdl e ->
  (quotas mdl <= usage_count t (original_transaction_id e) mdl ->
     res (chat w b t) =
       {| status := 403; body := error "Monthly quota exceeded for this model." |} /\
     no_fetch (calls (chat w b t)) /\
     (forall k m, usage_count (usageTracker (chat w b t)) k m = usage_count t k m)) /\
  (usage_count t (original_transaction_id e) mdl < quotas mdl ->
     status (res (chat w b t)) <> 403 /\
     In (CallFetch mdl (trim prmt)) (calls (chat w b t))) /\
  quotas Gpt35Turbo = 5000 /\ quotas Gpt4 = 800.
Proof.
  intros (rcpt & r & Hv & Hr & He).
  pose proof (chat_entitled w b t rcpt prmt mdl r e Hv Hr He) as Hc. cbv zeta in Hc.
  split; [|split; [|split; reflexivity]].
  - intros Hq. apply Z.leb_le in Hq. rewrite Hq in Hc. rewrite Hc. simpl.
    split; [reflexivity|]. split; [reflexivity|].
    intros k m. apply ensure_record_count.
  - intros Hq. apply Z.leb_gt in Hq. rewrite Hq in Hc. rewrite Hc. simpl.
    split; [apply forwarded_status|]. right. left. reflexivity.
Qed.

Lemma quota_check_witness :
  let w := sample_world (receipt_with [subscription "com.omegaai.chat4" "2000" "1000"])
             (answers "Hi there") 1500 in
  entitled w (request "gpt-4") (js "Hello") Gpt4
    (subscription "com.omegaai.chat4" "2000" "1000") /\
  quotas Gpt4 <= usage_count (premium_at 800) T1 Gpt4 /\
  res (chat w (request "gpt-4") (premium_at 800)) =
    {| status := 403; body := error "Monthly quota exceeded for this model." |} /\
  no_fetch (calls (chat w (request "gpt-4") (premium_at 800))).
Proof.
  intros w.
  assert (He : entitled w (request "gpt-4") (js "Hello") Gpt4
                 (subscription "com.omegaai.chat4" "2000" "1000")).
  { exists (js "cmVjZWlwdA=="), {| latest_receipt_info :=
        Some [subscription "com.omegaai.chat4" "2000" "1000"] |}.
    split; [reflexivity|]. split; reflexivity. }
  assert (Hq : quotas Gpt4 <= usage_count (premium_at 800) T1 Gpt4).
  { vm_compute. discriminate. }
  split; [exact He|]. split; [exact Hq|].
  destruct (quota_check w (request "gpt-4") (premium_at 800) (js "Hello") Gpt4 _ He)
    as (H1 & _).
  destruct (H1 Hq) as (Hres & Hnf & _). split; [exact Hres|exact Hnf].
Defined.

(** ** What a denial tells the caller *)

Lemma chat_rejected (w : world) (b : chat_body) (t : tracker) (k : reason) :
  rejected_with w b t k ->
  res (chat w b t) = denied (message_of k) /\
  no_fetch (calls (chat w b t)) /\
  (forall tid m, usage_count (usageTracker (chat w b t)) tid m = usage_count t tid m) /\
  (forall tid u, t !! tid = Some u -> usageTracker (chat w b t) !! tid = Some u).
Proof.
  intros (rcpt & prmt & mdl & Hv & Hk). destruct k.
  - rewrite (chat_unverified w b t rcpt prmt mdl Hv Hk). simpl. repeat split; auto.
  - destruct Hk as (r & Hr & He).
    rewrite (chat_unsubscribed w b t rcpt prmt mdl r Hv Hr He). simpl. repeat split; auto.
  - destruct Hk as (e & (rcpt' & r & Hv' & Hr & He) & Hq).
    rewrite Hv in Hv'. injection Hv' as <-.
    rewrite (chat_entitled w b t rcpt prmt mdl r e Hv Hr He).
    apply Z.leb_le in Hq. rewrite Hq. simpl. repeat split.
    + intros tid m. apply ensure_record_count.
    + intros tid u. apply ensure_record_keeps.
Qed.

(** C7, as the handler has it. The three denials share status 403, and the
    body names the reason: each reason has its own message, so the caller can
    tell them apart. *)
Theorem denial_names_reason (w : world) (b : chat_body) (t : tracker) (k : reason) :
  rejected_with w b t k ->
  status (res (chat w b t)) = 403 /\
  body (res (chat w b t)) = error (message_of k) /\
  (forall k', message_of k' = message_of k -> k' = k).
Proof.
  intros H. destruct (chat_rejected w b t k H) as (-> & _). simpl.
  split; [reflexivity|]. split; [reflexivity|].
  intros k'. destruct k, k'; simpl; intros Hm; try reflexivity; discriminate Hm.
Qed.

Lemma denial_names_reason_witness :
  let w := sample_world (receipt_with []) (answers "Hi there") 1500 in
  rejected_with w (request "gpt-4") ∅ NoActiveSubscription /\
  status (res (chat w (request "gpt-4") ∅)) = 403 /\
  body (res (chat w (request "gpt-4") ∅)) =
    error "No active subscription for requested model.".
Proof.
  intros w.
  assert (H : rejected_with w (request "gpt-4") ∅ NoActiveSubscription).
  { exists (js "cmVjZWlwdA=="), (js "Hello"), Gpt4. split; [reflexivity|].
    exists {| latest_receipt_info := Some [] |}. split; reflexivity. }
  split; [exact H|].
  destruct (denial_names_reason w (request "gpt-4") ∅ NoActiveSubscription H)
    as (Hs & Hb & _).
  split; [exact Hs|exact Hb].
Defined.

(** C7, as stated, fails: a request denied because its receipt does not
    verify and one denied for want of a subscription get different bodies. *)
Lemma denials_are_told_apart :
  let w1 := sample_world Rejected (answers "Hi there") 1500 in
  let w2 := sample_world (receipt_with []) (answers "Hi there") 1500 in
  rejected_with w1 (request "gpt-4") ∅ ReceiptVerificationFailed /\
  rejected_with w2 (request "gpt-4") ∅ NoActiveSubscription /\
  res (chat w1 (request "gpt-4") ∅) =
    {| status := 403; body := error "Failed to verify receipt." |} /\
  res (chat w2 (request "gpt-4") ∅) =
    {| status := 403; body := error "No active subscription for requested model." |} /\
  res (chat w1 (request "gpt-4") ∅) <> res (chat w2 (request "gpt-4") ∅).
Proof.
  intros w1 w2. split; [|split; [|split; [|split]]].
  - exists (js "cmVjZWlwdA=="), (js "Hello"), Gpt4. split; reflexivity.
  - exists (js "cmVjZWlwdA=="), (js "Hello"), Gpt4. split; [reflexivity|].
    exists {| latest_receipt_info := Some [] |}. split; reflexivity.
  - reflexivity.
  - reflexivity.
  - vm_compute. discriminate.
Qed.

(** ** Usage accounting *)

Lemma validate_status (b : chat_body) (r : response) :
  validate b = inl r -> status r = 400.
Proof.
  unfold validate. destruct (blank (receipt b)); [intros [= <-]; reflexivity|].
  destruct (blank (prompt b)); [intros [= <-]; reflexivity|].
  destruct (supported_model (model b)); [discriminate|intros [= <-]; reflexivity].
Qed.

(** Every request takes one of three roads: refused as invalid, denied
    access, or forwarded to the completion service. *)
Lemma chat_cases (w : world) (b : chat_body) (t : tracker) :
  (exists r, validate b = inl r) \/
  (exists k, rejected_with w b t k) \/
  (exists prmt mdl e,
      entitled w b prmt mdl e /\
      usage_count t (original_transaction_id e) mdl < quotas mdl).
Proof.
  destruct (validate b) as [r|[[rcpt prmt] mdl]] eqn:Hv; [left; eauto|right].
  destruct (verifyReceipt w rcpt (validationOptions w)) as [r|] eqn:Hr.
  2: { left. exists ReceiptVerificationFailed, rcpt, prmt, mdl. auto. }
  destruct (entitlement w mdl r) as [e|] eqn:He.
  2: { left. exists NoActiveSubscription, rcpt, prmt, mdl. split; [assumption|]. eauto. }
  assert (Hent : entitled w b prmt mdl e) by (exists rcpt, r; auto).
  destruct (Z_lt_le_dec (usage_count t (original_transaction_id e) mdl) (quotas mdl)).
  - right. exists prmt, mdl, e. auto.
  - left. exists QuotaExceeded, rcpt, prmt, mdl. split; [assumption|]. eauto.
Qed.

Lemma chat_forwarded (w : world) (b : chat_body) (t : tracker) prmt mdl e :
  entitled w b prmt mdl e ->
  usage_count t (original_transaction_id e) mdl < quotas mdl ->
  let tid := original_transaction_id e in
  let out := forwarded mdl tid (fetch w mdl (trim prmt)) (ensure_record tid t) in
  chat w b t =
    {| res := out.2; usageTracker := out.1;
       calls := [CallVerifyReceipt (text_of (receipt b)) (validationOptions w);
                 CallFetch mdl (trim prmt)] |}.
Proof.
  intros (rcpt & r & Hv & Hr & He) Hq tid out.
  rewrite (chat_entitled w b t rcpt prmt mdl r e Hv Hr He).
  apply Z.leb_gt in Hq. rewrite Hq. cbv zeta.
  apply validate_passes in Hv. destruct Hv as ((-> & _) & _). reflexivity.
Qed.

(** C3. A request that is not answered with status 200 (refused as invalid,
    denied for any of the three reasons, or failed upstream or internally)
    leaves every subscriber's count for every model as it was and every
    existing record untouched; and a count moves only for the subscriber and
    model of a request whose completion call was made, succeeded and carried a
    non-empty reply text, which is then answered with status 200. *)
Theorem failure_leaves_usage (w : world) (b : chat_body) (t : tracker) :
  (status (res (chat w b t)) <> 200 ->
     (forall tid m, usage_count (usageTracker (chat w b t)) tid m = usage_count t tid m) /\
     (forall tid u, t !! tid = Some u -> usageTracker (chat w b t) !! tid = Some u)) /\
  (forall tid m,
     usage_count (usageTracker (chat w b t)) tid m <> usage_count t tid m ->
     exists prmt e o j txt,
       entitled w b prmt m e /\ tid = original_transaction_id e /\
       In (CallFetch m (trim prmt)) (calls (chat w b t)) /\
       fetch w m (trim prmt) = Fulfilled o /\ ok o = true /\
       json_of o = Fulfilled j /\ replyText j = Fulfilled (Some txt) /\ txt <> [] /\
       res (chat w b t) = {| status := 200; body := reply txt |}).
Proof.
  destruct (chat_cases w b t) as [(r & Hv)|[(k & Hk)|(prmt & mdl & e & He & Hq)]].
  - rewrite (chat_invalid w b t r Hv). simpl. split; [auto|]. intros tid m H. congruence.
  - destruct (chat_rejected w b t k Hk) as (_ & _ & Hc & Hkeep).
    split; [auto|]. intros tid m H. destruct (H (Hc tid m)).
  - rewrite (chat_forwarded w b t prmt mdl e He Hq). cbv zeta. simpl.
    set (tid0 := original_transaction_id e).
    destruct (forwarded_cases mdl tid0 (fetch w mdl (trim prmt)) (ensure_record tid0 t))
      as [(r & -> & Hs)|(o & j & txt & u & Hf & Hok & Hj & Hr & Hne & Hu & ->)]; simpl.
    + split.
      * intros _. split; [intros; apply ensure_record_count|intros; by apply ensure_record_keeps].
      * intros tid m H. destruct H. apply ensure_record_count.
    + split; [intros H; destruct H; reflexivity|].
      intros tid m. rewrite (usage_count_commit _ _ _ _ _ _ Hu), ensure_record_count.
      case_decide as Hd; [|intros H; destruct H; reflexivity].
      destruct Hd as [-> ->]. intros _.
      exists prmt, e, o, j, txt. repeat split; auto.
Qed.

Lemma failure_leaves_usage_witness :
  let w := sample_world (receipt_with [subscription "com.omegaai.chat4" "2000" "1000"])
             (Fulfilled {| ok := false; text := Fulfilled (js "overloaded");
                           json_of := Rejected |}) 1500 in
  status (res (chat w (request "gpt-4") (premium_at 7))) <> 200 /\
  res (chat w (request "gpt-4") (premium_at 7)) =
    {| status := 500; body := error "Error communicating with OpenAI." |} /\
  (forall tid m, usage_count (usageTracker (chat w (request "gpt-4") (premium_at 7))) tid m
                 = usage_count (premium_at 7) tid m).
Proof.
  intros w.
  assert (H : status (res (chat w (request "gpt-4") (premium_at 7))) <> 200).
  { vm_compute. discriminate. }
  split; [exact H|]. split; [reflexivity|].
  destruct (failure_leaves_usage w (request "gpt-4") (premium_at 7)) as (H1 & _).
  destruct (H1 H) as (Hc & _). exact Hc.
Defined.

(** ** The reply *)


(** Without a content property in that message there is no reply text. *)
Lemma replyText_no_content (j first msg : json) (rest : list json) :
  property (js "choices") j = Some (JArray (first :: rest)) ->
  property (js "message") first = Some msg ->
  property (js "content") msg = None ->
  replyText j = Fulfilled None.
Proof.
  intros Hc Hm Hs. unfold replyText.
  destruct j; try discriminate Hc. rewrite Hc.
  change (optional index0 (Some (JArray (first :: rest)))) with (Some first).
  destruct first; try discriminate Hm.
  change (optional (property (js "message")) (Some (JObject properties0)))
    with (property (js "message") (JObject properties0)).
  rewrite Hm. destruct msg; try reflexivity.
  change (optional (property (js "content")) (Some (JObject properties1)))
    with (property (js "content") (JObject properties1)).
  rewrite Hs. reflexivity.
Qed.



(** ** Sorting by purchase time *)

Lemma SortCompare_pos (x y : entry) :
  0 < SortCompare x y ->
  exists px py, purchased_at x px /\ purchased_at y py /\ px < py.
Proof.
  unfold SortCompare, by_purchase_desc, purchased_at.
  destruct (parseInt (purchase_date_ms y)) as [py|];
    destruct (parseInt (purchase_date_ms x)) as [px|]; try lia.
  intros H. exists px, py. repeat split; lia.
Qed.

Lemma SortCompare_dated (x y : entry) (px py : Z) :
  purchased_at x px -> purchased_at y py -> SortCompare x y = py - px.
Proof.
  unfold SortCompare, by_purchase_desc, purchased_at. intros -> ->. reflexivity.
Qed.

Lemma insert_sorted_perm (x : entry) (l : list entry) :
  Permutation (insert_sorted x l) (x :: l).
Proof.
  induction l as [|y l IH]; simpl; [reflexivity|].
  destruct (SortCompare x y <=? 0); [reflexivity|].
  rewrite IH. apply perm_swap.
Qed.

Lemma sort_perm (l : list entry) : Permutation (sort l) l.
Proof.
  induction l as [|x l IH]; simpl; [reflexivity|].
  rewrite insert_sorted_perm. by constructor.
Qed.

Lemma insert_sorted_purchased (p : Z) (x : entry) (l : list entry) :
  purchased p (insert_sorted x l) = purchased p (x :: l).
Proof.
  induction l as [|y l IH]; [reflexivity|].
  simpl insert_sorted. destruct (SortCompare x y <=? 0) eqn:E; [reflexivity|].
  apply Z.leb_gt in E. destruct (SortCompare_pos x y E) as (px & py & Hx & Hy & Hlt).
  unfold purchased_at in Hx, Hy.
  change (purchased p (y :: insert_sorted x l))
    with (if decide (parseInt (purchase_date_ms y) = Some p)
          then y :: purchased p (insert_sorted x l) else purchased p (insert_sorted x l)).
  rewrite IH. simpl. rewrite Hx, Hy.
  repeat case_decide; try reflexivity. simplify_eq. lia.
Qed.

Lemma sort_purchased (p : Z) (l : list entry) : purchased p (sort l) = purchased p l.
Proof.
  induction l as [|x l IH]; [reflexivity|].
  simpl sort. rewrite insert_sorted_purchased. simpl. rewrite IH. reflexivity.
Qed.

Lemma not_before_trans (a b c : entry) : not_before a b -> not_before b c -> not_before a c.
Proof.
  intros (pa & pb & Ha & Hb & H1) (pb' & pc & Hb' & Hc & H2).
  unfold purchased_at in *. simplify_eq. exists pa, pc. repeat split; auto. lia.
Qed.

Lemma insert_sorted_sorted (x : entry) (l : list entry) :
  dated (x :: l) -> StronglySorted not_before l ->
  StronglySorted not_before (insert_sorted x l).
Proof.
  intros Hd Hs. induction Hs as [|y l Hs IH Hy]; simpl.
  - constructor; constructor.
  - inversion Hd as [|? ? (px & Hx) Hd']; subst.
    inversion Hd' as [|? ? (py & Hpy) Hd'']; subst.
    rewrite (SortCompare_dated x y px py Hx Hpy).
    destruct (py - px <=? 0) eqn:E.
    + apply Z.leb_le in E.
      assert (Hxy : not_before x y) by (exists px, py; repeat split; auto; lia).
      constructor; [by constructor|].
      constructor; [exact Hxy|].
      eapply Forall_impl; [exact Hy|]. intros z Hz. by eapply not_before_trans.
    + apply Z.leb_gt in E. constructor.
      * apply IH. constructor; [by exists px|assumption].
      * rewrite insert_sorted_perm. constructor; [|exact Hy].
        exists py, px. repeat split; auto. lia.
Qed.

Lemma sort_dated (l : list entry) : dated l -> dated (sort l).
Proof. unfold dated. intros H. by rewrite sort_perm. Qed.

Lemma sort_sorted (l : list entry) : dated l -> StronglySorted not_before (sort l).
Proof.
  induction l as [|x l IH]; simpl; intros Hd; [constructor|].
  inversion Hd; subst. apply insert_sorted_sorted; [|by apply IH].
  constructor; [assumption|]. by apply sort_dated.
Qed.

Lemma elem_of_purchased (p : Z) (l : list entry) (e : entry) :
  e ∈ purchased p l <-> e ∈ l /\ purchased_at e p.
Proof.
  unfold purchased_at. induction l as [|x l IH]; simpl.
  - split; [intros H; by apply elem_of_nil in H|intros [H _]; by apply elem_of_nil in H].
  - case_decide as Hx; rewrite ?elem_of_cons, IH.
    + split; [intros [->|[? ?]]; auto|intros [[->|?] ?]; auto].
    + split; [intros [? ?]; auto|intros [[->|?] ?]; [congruence|auto]].
Qed.

(** Two lists of dated entries, each with later purchases first and with the
    same entries in the same order at every purchase time, are the same list. *)
Lemma stable_sorted_unique (l1 l2 : list entry) :
  dated l1 -> dated l2 ->
  StronglySorted not_before l1 -> StronglySorted not_before l2 ->
  (forall p, purchased p l1 = purchased p l2) ->
  l1 = l2.
Proof.
  revert l2. induction l1 as [|a l1 IH]; intros l2 Hd1 Hd2 Hs1 Hs2 Heq.
  - destruct l2 as [|b l2]; [reflexivity|]. exfalso.
    inversion Hd2 as [|? ? (pb & Hb) _]; subst. specialize (Heq pb).
    unfold purchased_at in Hb. simpl in Heq. rewrite decide_True in Heq by assumption.
    discriminate.
  - inversion Hd1 as [|? ? (pa & Ha) Hd1']; subst. unfold purchased_at in Ha.
    destruct l2 as [|b l2].
    { specialize (Heq pa). simpl in Heq. rewrite decide_True in Heq by assumption.
      discriminate. }
    inversion Hd2 as [|? ? (pb & Hb) Hd2']; subst. unfold purchased_at in Hb.
    apply StronglySorted_cons in Hs1 as [Ha1 Hs1]. apply StronglySorted_cons in Hs2 as [Hb2 Hs2].
    rewrite Forall_forall in Ha1, Hb2.
    assert (Hpab : pa = pb).
    { destruct (decide (pa = pb)) as [|Hne]; [assumption|exfalso].
      assert (Hab : a ∈ l2).
      { pose proof (Heq pa) as H. simpl in H. rewrite decide_True in H by assumption.
        rewrite (decide_False (P := parseInt (purchase_date_ms b) = Some pa)) in H
          by congruence.
        assert (Hin : a ∈ purchased pa l2) by (rewrite <- H; set_solver).
        by apply elem_of_purchased in Hin as [? _]. }
      assert (Hba : b ∈ l1).
      { pose proof (Heq pb) as H. simpl in H.
        rewrite (decide_True (P := parseInt (purchase_date_ms b) = Some pb)) in H
          by assumption.
        rewrite (decide_False (P := parseInt (purchase_date_ms a) = Some pb)) in H
          by congruence.
        assert (Hin : b ∈ purchased pb l1) by (rewrite H; set_solver).
        by apply elem_of_purchased in Hin as [? _]. }
      destruct (Hb2 a Hab) as (q1 & q2 & H1 & H2 & Hle1).
      destruct (Ha1 b Hba) as (q3 & q4 & H3 & H4 & Hle2).
      unfold purchased_at in *. simplify_eq. lia. }
    subst pb.
    assert (Hhead : a = b).
    { specialize (Heq pa). simpl in Heq. rewrite !decide_True in Heq by assumption.
      congruence. }
    subst b. f_equal. apply IH; try assumption.
    intros p. specialize (Heq p). simpl in Heq. case_decide; congruence.
Qed.

(** On dated entries [sort] is the only stable descending arrangement. *)
Lemma sort_unique (l l' : list entry) :
  dated l -> dated l' ->
  StronglySorted not_before l' ->
  (forall p, purchased p l' = purchased p l) ->
  l' = sort l.
Proof.
  intros Hd Hd' Hs Hp. apply stable_sorted_unique; try assumption.
  - by apply sort_dated.
  - by apply sort_sorted.
  - intros p. by rewrite Hp, sort_purchased.
Qed.

(** ** The scan for a valid transaction *)

Lemma validTransaction_app (now : nat -> Z) (pid : jsstring) (l1 l2 : list entry) :
  forall i,
    validTransaction now i pid (l1 ++ l2) =
      match validTransaction now i pid l1 with
      | Some e => Some e
      | None => validTransaction now (i + readings pid l1) pid l2
      end.
Proof.
  induction l1 as [|x l1 IH]; intros i; simpl.
  - by rewrite Nat.add_0_r.
  - destruct (for_product pid x).
    + destruct (unexpired (now i) x); [reflexivity|].
      rewrite IH. by replace (i + (1 + readings pid l1))%nat with (S i + readings pid l1)%nat by lia.
    + by rewrite IH.
Qed.

Lemma validTransaction_None (now : nat -> Z) (pid : jsstring) (l : list entry) (i : nat) :
  validTransaction now i pid l = None <->
  (forall l1 e l2, l = l1 ++ e :: l2 -> for_product pid e = true ->
                   unexpired (now (i + readings pid l1)%nat) e = false).
Proof.
  split.
  - intros H l1 e l2 -> Hp. rewrite validTransaction_app in H.
    destruct (validTransaction now i pid l1); [discriminate|].
    simpl in H. rewrite Hp in H.
    destruct (unexpired (now (i + readings pid l1)%nat) e); [discriminate|reflexivity].
  - revert i. induction l as [|x l IH]; intros i H; [reflexivity|]. simpl.
    destruct (for_product pid x) eqn:Hp.
    + pose proof (H [] x l eq_refl Hp) as Hx. simpl in Hx. rewrite Nat.add_0_r in Hx.
      rewrite Hx. apply IH. intros l1 e l2 -> He.
      pose proof (H (x :: l1) e l2 eq_refl He) as H'. simpl in H'. rewrite Hp in H'.
      by replace (S i + readings pid l1)%nat with (i + (1 + readings pid l1))%nat by lia.
    + apply IH. intros l1 e l2 -> He.
      pose proof (H (x :: l1) e l2 eq_refl He) as H'. simpl in H'. by rewrite Hp in H'.
Qed.

Lemma validTransaction_Some (now : nat -> Z) (pid : jsstring) (l : list entry) (e : entry) :
  forall i,
    validTransaction now i pid l = Some e <->
    exists l1 l2,
      l = l1 ++ e :: l2 /\ for_product pid e = true /\
      unexpired (now (i + readings pid l1)%nat) e = true /\
      validTransaction now i pid l1 = None.
Proof.
  intros i. split.
  - revert i. induction l as [|x l IH]; intros i; simpl; [discriminate|].
    destruct (for_product pid x) eqn:Hp.
    + destruct (unexpired (now i) x) eqn:Hu.
      * intros [= ->]. exists [], l. simpl. rewrite Nat.add_0_r. auto.
      * intros H. destruct (IH _ H) as (l1 & l2 & -> & He & Hue & Hn).
        exists (x :: l1), l2. simpl. rewrite Hp, Hu.
        replace (i + (1 + readings pid l1))%nat with (S i + readings pid l1)%nat by lia. auto.
    + intros H. destruct (IH _ H) as (l1 & l2 & -> & He & Hue & Hn).
      exists (x :: l1), l2. simpl. rewrite Hp. auto.
  - intros (l1 & l2 & -> & He & Hu & Hn). rewrite validTransaction_app, Hn. simpl.
    by rewrite He, Hu.
Qed.

(** An entry of the product that no reading of the clock finds expired makes
    the scan stop at it or before it. *)
Lemma validTransaction_finds (now : nat -> Z) (pid : jsstring) (l : list entry) (x : entry) :
  x ∈ l -> for_product pid x = true -> (forall i, unexpired (now i) x = true) ->
  forall i, exists e l1 l2,
    l = l1 ++ e :: l2 /\ validTransaction now i pid l = Some e /\ (e = x \/ x ∈ l2).
Proof.
  intros Hin Hp Hu. induction l as [|y l IH]; intros i; [by apply elem_of_nil in Hin|].
  simpl. destruct (for_product pid y && unexpired (now i) y) eqn:E.
  - apply andb_true_iff in E as [-> ->]. exists y, [], l. simpl.
    apply elem_of_cons in Hin. split; [reflexivity|]. split; [reflexivity|].
    destruct Hin as [->|?]; auto.
  - assert (Hxy : x ∈ l).
    { apply elem_of_cons in Hin as [->|?]; [|assumption].
      rewrite Hp, Hu in E. discriminate. }
    assert (Hnext : exists i', (if for_product pid y
                                then if unexpired (now i) y then Some y
                                     else validTransaction now (S i) pid l
                                else validTransaction now i pid l)
                               = validTransaction now i' pid l).
    { destruct (for_product pid y); [|by exists i].
      destruct (unexpired (now i) y); [discriminate|by exists (S i)]. }
    destruct Hnext as (i' & ->).
    destruct (IH Hxy i') as (e & l1 & l2 & -> & Hv & Hor).
    exists e, (y :: l1), l2. auto.
Qed.

Lemma purchased_at_inj (e : entry) (p q : Z) : purchased_at e p -> purchased_at e q -> p = q.
Proof. unfold purchased_at. congruence. Qed.

(** In a list sorted by purchase time, the scan returns an entry purchased no
    earlier than any entry of the product that stays unexpired. *)
Lemma validTransaction_latest (now : nat -> Z) (pid : jsstring) (l : list entry)
    (x : entry) (px : Z) :
  StronglySorted not_before l ->
  x ∈ l -> for_product pid x = true -> (forall i, unexpired (now i) x = true) ->
  purchased_at x px ->
  exists e p, validTransaction now 0 pid l = Some e /\ purchased_at e p /\ px <= p.
Proof.
  intros Hs Hin Hp Hu Hx.
  destruct (validTransaction_finds now pid l x Hin Hp Hu 0%nat)
    as (e & l1 & l2 & -> & Hv & [->|Hl2]).
  - exists x, px. split; [assumption|]. split; [assumption|lia].
  - apply StronglySorted_app_1_r in Hs. apply StronglySorted_cons in Hs as [Hall _].
    rewrite Forall_forall in Hall. destruct (Hall x Hl2) as (pe & px' & He & Hx' & Hle).
    rewrite (purchased_at_inj x px px' Hx Hx'). exists e, pe. auto.
Qed.

(** ** Entitlement matching *)

Lemma for_product_spec (pid : jsstring) (e : entry) :
  for_product pid e = true <-> of_product pid e.
Proof. unfold for_product, of_product. apply bool_decide_eq_true. Qed.

Lemma unexpired_expires_after (nowMs : Z) (e : entry) :
  (unexpired nowMs e = true <-> expires_after nowMs e) /\
  (unexpired nowMs e = false <-> ~ expires_after nowMs e).
Proof.
  unfold unexpired, expires_after. destruct (parseInt (expires_date_ms e)) as [x|].
  - destruct (nowMs <? x) eqn:E.
    + apply Z.ltb_lt in E. split; split; try discriminate; eauto.
      intros H. destruct H. eauto.
    + apply Z.ltb_ge in E. split; split; try discriminate; auto.
      * intros (x' & [= <-] & Hlt). lia.
      * intros _ (x' & [= <-] & Hlt). lia.
  - split; split; try discriminate; auto.
    + by intros (x' & ? & _).
    + by intros _ (x' & ? & _).
Qed.

Lemma readings_product_entries (pid : jsstring) (l : list entry) :
  readings pid l = product_entries pid l.
Proof.
  induction l as [|e l IH]; simpl; [reflexivity|]. rewrite IH. unfold for_product.
  case_bool_decide; case_decide; congruence.
Qed.

Lemma well_dated_dated (l : list entry) : well_dated l -> dated l.
Proof.
  unfold well_dated, dated. intros H. eapply Forall_impl; [exact H|].
  intros e ((p & Hp & _) & _). by exists p.
Qed.

(** The loop, in terms of the fields of the entries. *)
Lemma validTransaction_first (now : nat -> Z) (pid : jsstring) (l : list entry) :
  (forall e,
     validTransaction now 0 pid l = Some e <->
     exists l1 l2,
       l = l1 ++ e :: l2 /\ of_product pid e /\
       expires_after (now (product_entries pid l1)) e /\
       (forall l1' e' l2', l1 = l1' ++ e' :: l2' -> of_product pid e' ->
          ~ expires_after (now (product_entries pid l1')) e')) /\
  (validTransaction now 0 pid l = None <->
     (forall l1 e l2, l = l1 ++ e :: l2 -> of_product pid e ->
        ~ expires_after (now (product_entries pid l1)) e)).
Proof.
  assert (Hnone : forall l0,
     validTransaction now 0 pid l0 = None <->
     (forall l1 e l2, l0 = l1 ++ e :: l2 -> of_product pid e ->
        ~ expires_after (now (product_entries pid l1)) e)).
  { intros l0. rewrite validTransaction_None. split.
    - intros H l1 e l2 Hl Hp. apply for_product_spec in Hp.
      specialize (H l1 e l2 Hl Hp). simpl in H. rewrite readings_product_entries in H.
      by apply unexpired_expires_after.
    - intros H l1 e l2 Hl Hp. apply for_product_spec in Hp.
      simpl. rewrite readings_product_entries.
      apply unexpired_expires_after. by eapply H. }
  split; [|apply Hnone].
  intros e. rewrite validTransaction_Some. split.
  - intros (l1 & l2 & Hl & Hp & Hu & Hn). exists l1, l2.
    simpl in Hu. rewrite readings_product_entries in Hu.
    split; [exact Hl|]. split; [by apply for_product_spec|].
    split; [by apply unexpired_expires_after|]. by apply Hnone.
  - intros (l1 & l2 & Hl & Hp & Hu & Hn). exists l1, l2.
    simpl. rewrite readings_product_entries.
    split; [exact Hl|]. split; [by apply for_product_spec|].
    split; [by apply unexpired_expires_after|]. by apply Hnone.
Qed.

(** C2, as the handler has it. For a verifier result in which every entry
    carries a purchase time that parses (all times below 2^53): the model is
    mapped to its product id (gpt-4 to com.omegaai.chat4, gpt-3.5-turbo to
    com.omegaai.chat3); the entries are put in the order that is a
    rearrangement of the verifier's list with later purchases first and equal
    purchase times in input order, and there is only one such order; the
    entry chosen is the first one in that
    order whose product id is that of the model and whose expiration parses to
    a time strictly greater than the clock reading taken for it; when there is
    none, the request is denied with status 403 and the no-subscription
    message.  Of two unexpired entries of the product with different purchase
    times, the one purchased earlier is never the one chosen: the chosen entry
    was purchased no earlier than the later of them. *)
Theorem entitlement_matching (w : world) (mdl : model_id) (r : appleResponse) :
  well_dated (inApp r) ->
  (productID Gpt4 = js "com.omegaai.chat4" /\
   productID Gpt35Turbo = js "com.omegaai.chat3") /\
  (Permutation (sort (inApp r)) (inApp r) /\
   (forall p, purchased p (sort (inApp r)) = purchased p (inApp r)) /\
   StronglySorted not_before (sort (inApp r)) /\
   (forall order,
      Permutation order (inApp r) ->
      (forall p, purchased p order = purchased p (inApp r)) ->
      StronglySorted not_before order ->
      order = sort (inApp r))) /\
  (forall e,
     entitlement w mdl r = Some e <->
     exists l1 l2,
       sort (inApp r) = l1 ++ e :: l2 /\
       product_id e = VString (productID mdl) /\
       (exists expiresMs,
           parseInt (expires_date_ms e) = Some expiresMs /\
           Date_now w (product_entries (productID mdl) l1) < expiresMs) /\
       (forall l1' e' l2', l1 = l1' ++ e' :: l2' ->
          product_id e' = VString (productID mdl) ->
          forall expiresMs, parseInt (expires_date_ms e') = Some expiresMs ->
            expiresMs <= Date_now w (product_entries (productID mdl) l1'))) /\
  (entitlement w mdl r = None <->
     (forall l1 e l2, sort (inApp r) = l1 ++ e :: l2 ->
        product_id e = VString (productID mdl) ->
        forall expiresMs, parseInt (expires_date_ms e) = Some expiresMs ->
          expiresMs <= Date_now w (product_entries (productID mdl) l1))) /\
  (forall b t rcpt prmt,
     validate b = inr (rcpt, prmt, mdl) ->
     verifyReceipt w rcpt (validationOptions w) = Fulfilled r ->
     entitlement w mdl r = None ->
     res (chat w b t) =
       {| status := 403; body := error "No active subscription for requested model." |}) /\
  (forall e1 e2 p1 p2,
     e1 ∈ inApp r -> e2 ∈ inApp r ->
     product_id e1 = VString (productID mdl) ->
     product_id e2 = VString (productID mdl) ->
     (forall i, exists x, parseInt (expires_date_ms e1) = Some x /\ Date_now w i < x) ->
     (forall i, exists x, parseInt (expires_date_ms e2) = Some x /\ Date_now w i < x) ->
     purchased_at e1 p1 -> purchased_at e2 p2 -> p2 < p1 ->
     entitlement w mdl r <> Some e2 /\
     exists e p, entitlement w mdl r = Some e /\ purchased_at e p /\ p1 <= p).
Proof.
  intros Hwd. pose proof (well_dated_dated _ Hwd) as Hd.
  assert (Hnot : forall nowMs e,
            ~ expires_after nowMs e <->
            (forall x, parseInt (expires_date_ms e) = Some x -> x <= nowMs)).
  { intros nowMs e. unfold expires_after. split.
    - intros H x Hx. destruct (Z_lt_le_dec nowMs x); [|assumption]. destruct H. eauto.
    - intros H (x & Hx & Hlt). specialize (H x Hx). lia. }
  destruct (validTransaction_first (Date_now w) (productID mdl) (sort (inApp r)))
    as (Hsome & Hnone).
  split; [split; reflexivity|].
  split.
  { split; [apply sort_perm|]. split; [intros; apply sort_purchased|].
    split; [by apply sort_sorted|].
    intros order Hperm Hkeep Hsorted. apply sort_unique; try assumption.
    unfold dated. by rewrite Hperm. }
  split; [|split; [|split]].
  - intros e. unfold entitlement. rewrite Hsome.
    split; intros (l1 & l2 & Hl & Hp & Hu & Hn); exists l1, l2;
      (split; [exact Hl|]); (split; [exact Hp|]); (split; [exact Hu|]);
      intros l1' e' l2' Hl' Hp'; apply Hnot; by eapply Hn.
  - unfold entitlement. rewrite Hnone.
    split; intros H l1 e l2 Hl Hp; apply Hnot; by eapply H.
  - intros b t rcpt prmt Hv Hr He. by rewrite (chat_unsubscribed w b t rcpt prmt mdl r Hv Hr He).
  - intros e1 e2 p1 p2 H1 H2 Hp1 Hp2 Hu1 Hu2 Hpa1 Hpa2 Hlt.
    assert (Hin : e1 ∈ sort (inApp r)) by (by rewrite sort_perm).
    assert (Hf1 : for_product (productID mdl) e1 = true) by (by apply for_product_spec).
    assert (Hx1 : forall i, unexpired (Date_now w i) e1 = true).
    { intros i. apply unexpired_expires_after. apply Hu1. }
    destruct (validTransaction_latest (Date_now w) (productID mdl) (sort (inApp r)) e1 p1
                (sort_sorted _ Hd) Hin Hf1 Hx1 Hpa1) as (e & p & He & Hpe & Hle).
    fold (entitlement w mdl r) in He. split; [|by exists e, p].
    rewrite He. intros [= ->]. pose proof (purchased_at_inj _ _ _ Hpe Hpa2). lia.
Qed.

Lemma entitlement_matching_witness :
  let older := subscription "com.omegaai.chat4" "9000" "1000" in
  let newer := subscription "com.omegaai.chat4" "8000" "2000" in
  let r := {| latest_receipt_info := Some [older; newer] |} in
  let w := sample_world (Fulfilled r) (answers "Hi there") 1500 in
  well_dated (inApp r) /\
  sort (inApp r) = [newer; older] /\
  entitlement w Gpt4 r = Some newer /\
  entitlement w Gpt4 r <> Some older.
Proof.
  intros older newer r w.
  assert (Hwd : well_dated (inApp r)).
  { repeat constructor.
    - exists 1000. split; [reflexivity|vm_compute; reflexivity].
    - intros x [= <-]. vm_compute. reflexivity.
    - exists 2000. split; [reflexivity|vm_compute; reflexivity].
    - intros x [= <-]. vm_compute. reflexivity. }
  split; [exact Hwd|]. split; [reflexivity|]. split; [reflexivity|].
  destruct (entitlement_matching w Gpt4 r Hwd) as (_ & _ & _ & _ & _ & Hlatest).
  assert (Hnew : newer ∈ inApp r) by (apply list_elem_of_In; simpl; auto).
  assert (Hold : older ∈ inApp r) by (apply list_elem_of_In; simpl; auto).
  assert (Hu1 : forall i : nat,
            exists x, parseInt (expires_date_ms newer) = Some x /\ Date_now w i < x).
  { intros i. exists 8000. split; [reflexivity|]. simpl. lia. }
  assert (Hu2 : forall i : nat,
            exists x, parseInt (expires_date_ms older) = Some x /\ Date_now w i < x).
  { intros i. exists 9000. split; [reflexivity|]. simpl. lia. }
  destruct (Hlatest newer older 2000 1000 Hnew Hold eq_refl eq_refl Hu1 Hu2
              eq_refl eq_refl ltac:(lia)) as (Hne & _).
  exact Hne.
Defined.

(** C2, as stated, fails. An entry of the other product without a purchase
    time stands between two premium entries, both unexpired, the second one
    purchased later: its comparisons give NaN, the sort leaves the list as it
    is, and the entry purchased earlier is the one chosen. *)
Lemma later_purchase_can_lose :
  let older := subscription "com.omegaai.chat4" "9000" "1000" in
  let newer := subscription "com.omegaai.chat4" "8000" "2000" in
  let undated := {| product_id := VString (js "com.omegaai.chat3");
                    original_transaction_id := T1;
                    expires_date_ms := VString (js "9000");
                    purchase_date_ms := VUndefined |} in
  let r := {| latest_receipt_info := Some [older; undated; newer] |} in
  let w := sample_world (Fulfilled r) (answers "Hi there") 1500 in
  product_id older = VString (productID Gpt4) /\
  product_id newer = VString (productID Gpt4) /\
  (forall i, exists x, parseInt (expires_date_ms older) = Some x /\ Date_now w i < x) /\
  (forall i, exists x, parseInt (expires_date_ms newer) = Some x /\ Date_now w i < x) /\
  purchased_at older 1000 /\ purchased_at newer 2000 /\
  sort (inApp r) = [older; undated; newer] /\
  entitlement w Gpt4 r = Some older /\
  entitlement w Gpt4 r <> Some newer.
Proof.
  intros older newer undated r w.
  split; [reflexivity|]. split; [reflexivity|].
  split; [intros i; exists 9000; split; [reflexivity|simpl; lia]|].
  split; [intros i; exists 8000; split; [reflexivity|simpl; lia]|].
  split; [reflexivity|]. split; [reflexivity|]. split; [reflexivity|].
  split; [reflexivity|]. vm_compute. discriminate.
Qed.

(** ** Malformed entries *)

Lemma unexpired_spec (nowMs : Z) (e : entry) :
  unexpired nowMs e = true <->
  exists expiresMs, parseInt (expires_date_ms e) = Some expiresMs /\ nowMs < expiresMs.
Proof.
  unfold unexpired. destruct (parseInt (expires_date_ms e)) as [x|].
  - rewrite Z.ltb_lt. split; [eauto|]. by intros (? & [= <-] & ?).
  - split; [discriminate|]. by intros (? & ? & ?).
Qed.

Lemma validTransaction_sound (now : nat -> Z) (pid : jsstring) (l : list entry) (e : entry) :
  forall i, validTransaction now i pid l = Some e ->
    e ∈ l /\ for_product pid e = true /\
    exists expiresMs k, parseInt (expires_date_ms e) = Some expiresMs /\ now k < expiresMs.
Proof.
  intros i H. apply validTransaction_Some in H as (l1 & l2 & -> & Hp & Hu & _).
  split; [set_solver|]. split; [exact Hp|].
  apply unexpired_spec in Hu as (x & Hx & Hlt). eauto.
Qed.

(** The stage that follows a verified receipt never faults: it denies for
    want of a subscription, denies for quota, or lets the request through. *)
Lemma authorize_total (w : world) (mdl : model_id) (r : appleResponse) (t : tracker) :
  (entitlement w mdl r = None /\
   authorize w mdl (Fulfilled r) t =
     (t, inl (denied "No active subscription for requested model."))) \/
  (exists e, entitlement w mdl r = Some e /\
     ((authorize w mdl (Fulfilled r) t).2 =
        inl (denied "Monthly quota exceeded for this model.") \/
      (authorize w mdl (Fulfilled r) t).2 = inr (original_transaction_id e))).
Proof.
  unfold authorize. destruct (entitlement w mdl r) as [e|]; [right|left; auto].
  exists e. split; [reflexivity|]. rewrite enforce_quota_spec. cbv zeta. simpl.
  destruct (quotas mdl <=? usage_count t (original_transaction_id e) mdl); auto.
Qed.

(** C10. The matcher is total on every list of entries, also on entries whose
    expiration or purchase time is absent or does not parse: such an entry
    never qualifies and the loop passes over it; whatever order the sort
    leaves the entries in, an entry that is chosen belongs to the list, is of
    the product and has an expiration that parses to a number above a clock
    reading; the stage ends in a denial or lets the request through, never in
    an internal fault; and when every entry of the product is malformed or
    expired the request is denied with status 403 and the no-subscription
    message. *)
Theorem malformed_entries_skipped (w : world) (mdl : model_id) (r : appleResponse) :
  (forall e nowMs, parseInt (expires_date_ms e) = None -> unexpired nowMs e = false) /\
  (forall i e l,
     unexpired (Date_now w i) e = false ->
     validTransaction (Date_now w) i (productID mdl) (e :: l) =
     validTransaction (Date_now w) (if for_product (productID mdl) e then S i else i)
       (productID mdl) l) /\
  (forall order e i,
     Permutation order (inApp r) ->
     validTransaction (Date_now w) i (productID mdl) order = Some e ->
     e ∈ inApp r /\ for_product (productID mdl) e = true /\
     exists expiresMs k,
       parseInt (expires_date_ms e) = Some expiresMs /\ Date_now w k < expiresMs) /\
  (forall t, (authorize w mdl (Fulfilled r) t).2 <> inl internal_error) /\
  (forall b t rcpt prmt,
     validate b = inr (rcpt, prmt, mdl) ->
     verifyReceipt w rcpt (validationOptions w) = Fulfilled r ->
     (forall e, e ∈ inApp r -> for_product (productID mdl) e = true ->
        parseInt (expires_date_ms e) = None \/
        exists expiresMs, parseInt (expires_date_ms e) = Some expiresMs /\
                          forall k, expiresMs <= Date_now w k) ->
     res (chat w b t) =
       {| status := 403; body := error "No active subscription for requested model." |}).
Proof.
  split; [|split; [|split; [|split]]].
  - intros e nowMs H. unfold unexpired. by rewrite H.
  - intros i e l H. simpl. rewrite H. by destruct (for_product (productID mdl) e).
  - intros order e i Hperm H.
    destruct (validTransaction_sound _ _ _ _ _ H) as (Hin & Hrest).
    split; [by rewrite <- Hperm|exact Hrest].
  - intros t.
    destruct (authorize_total w mdl r t) as [(_ & ->)|(e & _ & [-> | ->])]; discriminate.
  - intros b t rcpt prmt Hv Hr Hbad.
    rewrite (chat_unsubscribed w b t rcpt prmt mdl r Hv Hr); [reflexivity|].
    unfold entitlement. apply validTransaction_None. intros l1 e l2 Hl Hp.
    assert (Hin : e ∈ inApp r).
    { rewrite <- (sort_perm (inApp r)), Hl. set_solver. }
    destruct (Hbad e Hin Hp) as [Hnone|(x & Hx & Hle)]; unfold unexpired.
    + by rewrite Hnone.
    + rewrite Hx. apply Z.ltb_ge. apply Hle.
Qed.

Lemma malformed_entries_skipped_witness :
  let blank_dates := {| product_id := VString (js "com.omegaai.chat4");
                        original_transaction_id := T1;
                        expires_date_ms := VUndefined;
                        purchase_date_ms := VUndefined |} in
  let r := {| latest_receipt_info :=
                Some [blank_dates; subscription "com.omegaai.chat4" "soon" "lately";
                      subscription "com.omegaai.chat4" "1200" "1000"] |} in
  let w := sample_world (Fulfilled r) (answers "Hi there") 1500 in
  validate (request "gpt-4") = inr (js "cmVjZWlwdA==", js "Hello", Gpt4) /\
  res (chat w (request "gpt-4") ∅) =
    {| status := 403; body := error "No active subscription for requested model." |}.
Proof.
  intros blank_dates r w. split; [reflexivity|].
  destruct (malformed_entries_skipped w Gpt4 r) as (_ & _ & _ & _ & H).
  apply (H (request "gpt-4") ∅ (js "cmVjZWlwdA==") (js "Hello") eq_refl eq_refl).
  intros e Hin _. apply list_elem_of_In in Hin. simpl in Hin.
  destruct Hin as [<-|[<-|[<-|[]]]].
  - left. reflexivity.
  - left. reflexivity.
  - right. exists 1200. split; [reflexivity|]. intros k. simpl. lia.
Defined.

(** ** Monotonicity of the tracker *)

Lemma grows_refl (t : tracker) : grows t t.
Proof. intros tid. unfold record_le. destruct (t !! tid); [intros; lia|exact I]. Qed.

Lemma grows_trans (t1 t2 t3 : tracker) : grows t1 t2 -> grows t2 t3 -> grows t1 t3.
Proof.
  intros H12 H23 tid. specialize (H12 tid). specialize (H23 tid). unfold record_le in *.
  destruct (t1 !! tid), (t2 !! tid), (t3 !! tid); try tauto;
    intros m; specialize (H12 m); specialize (H23 m); lia.
Qed.

Lemma touched_grows (t t' : tracker) :
  (forall tid, touched (t !! tid) (t' !! tid)) -> grows t t'.
Proof.
  intros H tid. specialize (H tid). unfold record_le.
  destruct H as [o| |u m0].
  - destruct o; [intros; lia|exact I].
  - intros m. destruct m; simpl; lia.
  - intros m. rewrite count_of_increment. case_decide; lia.
Qed.

(** What growth means for the counts and the records. *)
Lemma grows_spec (t t' : tracker) (tid : value) :
  grows t t' ->
  (forall m, usage_count t tid m <= usage_count t' tid m) /\
  (is_Some (t !! tid) -> is_Some (t' !! tid)).
Proof.
  intros H. specialize (H tid). unfold record_le in H. unfold usage_count.
  destruct (t !! tid), (t' !! tid); try tauto; split; auto; try (intros; lia).
Qed.

Lemma ensure_record_touched (tid k : value) (t : tracker) :
  touched (t !! k) (ensure_record tid t !! k).
Proof.
  destruct (decide (k = tid)) as [->|Hne].
  - rewrite ensure_record_lookup. destruct (t !! tid); simpl; constructor.
  - rewrite ensure_record_other by assumption. constructor.
Qed.

Lemma authorize_touched (w : world) (mdl : model_id) (v : settled appleResponse)
    (t : tracker) (k : value) :
  touched (t !! k) ((authorize w mdl v t).1 !! k).
Proof.
  unfold authorize. destruct v as [r|]; [|constructor].
  destruct (entitlement w mdl r) as [e|]; [|constructor].
  rewrite enforce_quota_spec. apply ensure_record_touched.
Qed.

Lemma commit_touched (mdl : model_id) (tid k : value) (parsed : settled json) (t : tracker) :
  touched (t !! k) ((commit mdl tid parsed t).1 !! k).
Proof.
  destruct (commit_cases mdl tid parsed t) as [(r & -> & _)|(j & txt & u & _ & _ & _ & Hu & ->)];
    simpl; [constructor|].
  destruct (decide (k = tid)) as [->|Hne].
  - rewrite lookup_insert_eq, Hu. constructor.
  - rewrite lookup_insert_ne by congruence. constructor.
Qed.

Lemma step_touched (w : world) (p : pc) (t : tracker) (k : value) :
  touched (t !! k) ((step w p t).1 !! k).
Proof.
  destruct p as [b|prmt mdl rcpt|prmt mdl tid|o|mdl tid o|r]; simpl.
  - destruct (validate b) as [r|[[rcpt prmt] mdl]]; constructor.
  - pose proof (authorize_touched w mdl (verifyReceipt w rcpt (validationOptions w)) t k) as H.
    destruct (authorize w mdl (verifyReceipt w rcpt (validationOptions w)) t) as [t1 [r|tid]];
      exact H.
  - destruct (fetch w mdl (trim prmt)) as [o|]; [|constructor].
    destruct (ok o); constructor.
  - constructor.
  - pose proof (commit_touched mdl tid k (json_of o) t) as H.
    destruct (commit mdl tid (json_of o) t) as [t2 out]. exact H.
  - constructor.
Qed.

Lemma resume_grows (i : nat) (s : server) : grows (store s) (store (resume i s)).
Proof.
  unfold resume. destruct (inflight s !! i) as [[w p]|]; [|apply grows_refl].
  pose proof (step_touched w p (store s)) as H.
  destruct (step w p (store s)) as [t' p']. simpl. by apply touched_grows.
Qed.

Lemma run_grows (schedule : list nat) (s : server) : grows (store s) (store (run schedule s)).
Proof.
  revert s. induction schedule as [|i rest IH]; intros s; simpl; [apply grows_refl|].
  eapply grows_trans; [apply resume_grows|apply IH].
Qed.

(** A request handled alone goes through the same four runs of the handler
    as the event loop gives it. *)
Lemma chat_run (w : world) (b : chat_body) (t : tracker) :
  run [0; 0; 0; 0]%nat {| store := t; inflight := [(w, Received b)] |} =
    {| store := usageTracker (chat w b t);
       inflight := [(w, Responded (res (chat w b t)))] |}.
Proof.
  unfold chat, run, resume. simpl.
  destruct (validate b) as [r|[[rcpt prmt] mdl]]; simpl; [reflexivity|].
  destruct (authorize w mdl (verifyReceipt w rcpt (validationOptions w)) t) as [t1 [r|tid]];
    simpl; [reflexivity|].
  destruct (fetch w mdl (trim prmt)) as [o|]; simpl; [|reflexivity].
  destruct (ok o); simpl; [|reflexivity].
  destruct (commit mdl tid (json_of o) t1) as [t2 out]; reflexivity.
Qed.

Lemma chat_grows (w : world) (b : chat_body) (t : tracker) :
  grows t (usageTracker (chat w b t)).
Proof.
  pose proof (run_grows [0; 0; 0; 0]%nat {| store := t; inflight := [(w, Received b)] |}) as H.
  rewrite chat_run in H. exact H.
Qed.

Lemma serve_grows (requests : list (world * chat_body)) (t : tracker) :
  grows t (serve requests t).
Proof.
  revert t. induction requests as [|[w b] rest IH]; intros t; simpl; [apply grows_refl|].
  eapply grows_trans; [apply chat_grows|apply IH].
Qed.

(** C8. Counts never go down and records never go away: each run of the
    handler between two suspensions leaves a subscriber's record as it was,
    creates it with zero counts, or adds one to one of its counts; hence over
    any interleaving of requests in flight, over a single request and over any
    sequence of requests, every record of the tracker is still there
    afterwards and every count is at least what it was. *)
Theorem usage_never_decreases :
  (forall w p t tid, touched (t !! tid) ((step w p t).1 !! tid)) /\
  (forall schedule s tid,
     (forall m, usage_count (store s) tid m <= usage_count (store (run schedule s)) tid m) /\
     (is_Some (store s !! tid) -> is_Some (store (run schedule s) !! tid))) /\
  (forall w b t tid,
     (forall m, usage_count t tid m <= usage_count (usageTracker (chat w b t)) tid m) /\
     (is_Some (t !! tid) -> is_Some (usageTracker (chat w b t) !! tid))) /\
  (forall requests t tid,
     (forall m, usage_count t tid m <= usage_count (serve requests t) tid m) /\
     (is_Some (t !! tid) -> is_Some (serve requests t !! tid))).
Proof.
  split; [exact step_touched|]. split; [|split].
  - intros schedule s tid. apply grows_spec, run_grows.
  - intros w b t tid. apply grows_spec, chat_grows.
  - intros requests t tid. apply grows_spec, serve_grows.
Qed.

(** ** Requests in flight together *)

Lemma checked_le_length (tid : value) (m : model_id) (l : list (world * pc)) :
  0 <= checked tid m l <= Z.of_nat (length l).
Proof.
  induction l as [|[w p] l IH]; simpl; [lia|].
  destruct (checked_for tid m p); lia.
Qed.

Lemma checked_insert (tid : value) (m : model_id) (l : list (world * pc)) (i : nat)
    (w : world) (p p' : pc) :
  l !! i = Some (w, p) ->
  checked tid m (<[i := (w, p')]> l) =
    checked tid m l - (if checked_for tid m p then 1 else 0)
                    + (if checked_for tid m p' then 1 else 0).
Proof.
  revert i. induction l as [|[w0 p0] l IH]; intros i H; [discriminate|].
  destruct i as [|i]; simpl in *.
  - injection H as -> ->. lia.
  - rewrite (IH i H). lia.
Qed.

(** One run of the handler either does not raise the count plus the
    request's own claim on it, or it is the quota check being passed below
    the ceiling. *)
Lemma step_potential (w : world) (p : pc) (t : tracker) (tid : value) (m : model_id) :
  let c := if checked_for tid m p then 1 else 0 in
  let c' := if checked_for tid m (step w p t).2 then 1 else 0 in
  usage_count (step w p t).1 tid m + c' <= usage_count t tid m + c \/
  (c = 0 /\ c' = 1 /\ usage_count (step w p t).1 tid m = usage_count t tid m /\
   usage_count t tid m < quotas m).
Proof.
  destruct p as [b|prmt mdl rcpt|prmt mdl tid'|o|mdl tid' o|r]; simpl.
  - left. destruct (validate b) as [r|[[rcpt prmt] mdl]]; simpl; lia.
  - unfold authorize. destruct (verifyReceipt w rcpt (validationOptions w)) as [r|];
      [|left; simpl; lia].
    destruct (entitlement w mdl r) as [e|]; [|left; simpl; lia].
    rewrite enforce_quota_spec. cbv zeta.
    destruct (quotas mdl <=? usage_count t (original_transaction_id e) mdl) eqn:E; simpl;
      rewrite ensure_record_count; [left; lia|].
    case_bool_decide as Hd; [|left; lia].
    destruct Hd as [? ?]; subst. apply Z.leb_gt in E. right. repeat split; auto.
  - left. destruct (fetch w mdl (trim prmt)) as [o|]; simpl;
      [destruct (ok o); simpl|]; case_bool_decide; lia.
  - left. lia.
  - left.
    destruct (commit_cases mdl tid' (json_of o) t)
      as [(r & Hc & _)|(j & txt & u & _ & _ & _ & Hu & Hc)]; rewrite Hc; simpl.
    + case_bool_decide; lia.
    + rewrite (usage_count_commit _ _ _ _ _ _ Hu).
      case_bool_decide as Hd; case_decide as Hd'; try lia.
      destruct Hd'. destruct Hd. split; congruence.
  - left. lia.
Qed.

(** The count plus the claims on it stay within the ceiling plus the number
    of other requests in flight. *)
Lemma resume_bound (i : nat) (s : server) (tid : value) (m : model_id) :
  usage_count (store s) tid m + checked tid m (inflight s)
    <= quotas m + Z.of_nat (length (inflight s)) - 1 ->
  usage_count (store (resume i s)) tid m + checked tid m (inflight (resume i s))
    <= quotas m + Z.of_nat (length (inflight (resume i s))) - 1 /\
  length (inflight (resume i s)) = length (inflight s).
Proof.
  intros Hinv. unfold resume. destruct (inflight s !! i) as [[w p]|] eqn:Hi; [|auto].
  pose proof (step_potential w p (store s) tid m) as Hstep. cbv zeta in Hstep.
  destruct (step w p (store s)) as [t' p'] eqn:Es. simpl in *.
  rewrite length_insert. split; [|reflexivity].
  pose proof (checked_insert tid m (inflight s) i w p p' Hi) as Hc.
  destruct Hstep as [Hle|(Hc0 & Hc1 & Hu & Hq)]; [lia|].
  pose proof (checked_le_length tid m (<[i:=(w, p')]> (inflight s))) as Hb.
  rewrite length_insert in Hb. lia.
Qed.

Lemma run_bound (schedule : list nat) (s : server) (tid : value) (m : model_id) :
  usage_count (store s) tid m + checked tid m (inflight s)
    <= quotas m + Z.of_nat (length (inflight s)) - 1 ->
  usage_count (store (run schedule s)) tid m
    <= quotas m + Z.of_nat (length (inflight s)) - 1.
Proof.
  revert s. induction schedule as [|i rest IH]; intros s Hinv; simpl.
  - pose proof (checked_le_length tid m (inflight s)). lia.
  - destruct (resume_bound i s tid m Hinv) as (Hinv' & Hlen).
    rewrite <- Hlen. apply IH. exact Hinv'.
Qed.

Lemma checked_arriving (tid : value) (m : model_id) (requests : list (world * chat_body)) :
  checked tid m (arriving requests) = 0.
Proof. induction requests as [|[w b] l IH]; simpl; [reflexivity|]. rewrite IH. reflexivity. Qed.

(** A request handled alone leaves a count at or below the ceiling there. *)
Lemma chat_bound (w : world) (b : chat_body) (t : tracker) (tid : value) (m : model_id) :
  usage_count t tid m <= quotas m ->
  usage_count (usageTracker (chat w b t)) tid m <= quotas m.
Proof.
  intros H.
  pose proof (run_bound [0; 0; 0; 0]%nat {| store := t; inflight := [(w, Received b)] |} tid m)
    as Hrun.
  rewrite chat_run in Hrun. simpl in Hrun. lia.
Qed.

Lemma serve_bound (requests : list (world * chat_body)) (t : tracker) (tid : value)
    (m : model_id) :
  usage_count t tid m <= quotas m -> usage_count (serve requests t) tid m <= quotas m.
Proof.
  revert t. induction requests as [|[w b] rest IH]; intros t H; simpl; [exact H|].
  apply IH. by apply chat_bound.
Qed.

(** The count moves only when a request comes back from the completion
    service with a reply, and then by one, for that request's subscriber and
    model; the request is answered and cannot commit again. *)
Lemma resume_delta (i : nat) (s : server) (tid : value) (m : model_id) :
  usage_count (store (resume i s)) tid m = usage_count (store s) tid m \/
  (usage_count (store (resume i s)) tid m = usage_count (store s) tid m + 1 /\
   exists w o txt,
     inflight s !! i = Some (w, AwaitJson m tid o) /\
     inflight (resume i s) !! i =
       Some (w, Responded {| status := 200; body := reply txt |})).
Proof.
  unfold resume. destruct (inflight s !! i) as [[w p]|] eqn:Hi; [|by left].
  assert (Hlt : (i < length (inflight s))%nat) by (by eapply lookup_lt_Some).
  destruct p as [b|prmt mdl rcpt|prmt mdl tid'|o|mdl tid' o|r]; simpl.
  - left. by destruct (validate b) as [r|[[rcpt prmt] mdl]].
  - left. unfold authorize.
    destruct (verifyReceipt w rcpt (validationOptions w)) as [r|]; [|reflexivity].
    destruct (entitlement w mdl r) as [e|]; [|reflexivity].
    rewrite enforce_quota_spec. cbv zeta.
    destruct (quotas mdl <=? usage_count (store s) (original_transaction_id e) mdl);
      simpl; apply ensure_record_count.
  - left. destruct (fetch w mdl (trim prmt)) as [o|]; [destruct (ok o)|]; reflexivity.
  - by left.
  - destruct (commit_cases mdl tid' (json_of o) (store s))
      as [(r & Hc & _)|(j & txt & u & _ & _ & _ & Hu & Hc)]; rewrite Hc; simpl; [by left|].
    rewrite (usage_count_commit _ _ _ _ _ _ Hu). case_decide as Hd; [|by left].
    destruct Hd as [-> ->]. right. split; [reflexivity|].
    exists w, o, txt. split; [reflexivity|]. by rewrite list_lookup_insert_eq.
  - by left.
Qed.

Lemma resume_at (i : nat) (s : server) (w : world) (p : pc) :
  inflight s !! i = Some (w, p) ->
  store (resume i s) = (step w p (store s)).1 /\
  inflight (resume i s) !! i = Some (w, (step w p (store s)).2).
Proof.
  intros Hi. unfold resume. rewrite Hi. destruct (step w p (store s)) as [t' p']. simpl.
  split; [reflexivity|]. apply list_lookup_insert_eq. by eapply lookup_lt_Some.
Qed.

(** A run of the handler that ends in an answer with status 200 is the one
    that comes back from the completion service, and it adds one to the count
    of its subscriber for its model and to no other. *)
Lemma step_answer (w : world) (p : pc) (t : tracker) (r : response) :
  (step w p t).2 = Responded r -> status r = 200 ->
  (forall r0, p <> Responded r0) ->
  exists m tid o,
    p = AwaitJson m tid o /\
    usage_count (step w p t).1 tid m = usage_count t tid m + 1 /\
    (forall k m', ~ (k = tid /\ m' = m) ->
       usage_count (step w p t).1 k m' = usage_count t k m').
Proof.
  destruct p as [b|prmt mdl rcpt|prmt mdl tid|o|mdl tid o|r0]; simpl.
  - destruct (validate b) as [r1|[[rcpt prmt] mdl]] eqn:Hv; simpl; [|discriminate].
    intros [= <-] Hs. apply validate_status in Hv. congruence.
  - unfold authorize. destruct (verifyReceipt w rcpt (validationOptions w)) as [a|]; simpl.
    + destruct (entitlement w mdl a) as [e|]; simpl.
      * rewrite enforce_quota_spec. cbv zeta.
        destruct (quotas mdl <=? usage_count t (original_transaction_id e) mdl); simpl;
          [|discriminate].
        intros [= <-]. discriminate.
      * intros [= <-]. discriminate.
    + intros [= <-]. discriminate.
  - destruct (fetch w mdl (trim prmt)) as [o|]; simpl;
      [destruct (ok o); simpl; discriminate|].
    intros [= <-]. discriminate.
  - intros [= <-] Hs. destruct (text o); discriminate.
  - destruct (commit_cases mdl tid (json_of o) t)
      as [(r1 & Hc & Hst)|(j & txt & u & _ & _ & _ & Hu & Hc)]; rewrite Hc; simpl.
    + intros [= <-] Hs. congruence.
    + intros _ _ _. exists mdl, tid, o. split; [reflexivity|].
      split.
      * rewrite (usage_count_commit _ _ _ _ _ _ Hu). case_decide; [reflexivity|tauto].
      * intros k m' Hkm. rewrite (usage_count_commit _ _ _ _ _ _ Hu).
        case_decide; [tauto|reflexivity].
  - intros _ _ H. destruct (H r0 eq_refl).
Qed.

(** Resuming a request moves the count of a subscriber for a model by one
    exactly when that is the turn in which a request of that subscriber for
    that model is answered with status 200. *)
Lemma resume_accounting (i : nat) (s : server) (tid : value) (m : model_id) :
  usage_count (store (resume i s)) tid m =
    usage_count (store s) tid m + (if commits_at tid m i s then 1 else 0).
Proof.
  destruct (commits_at tid m i s) eqn:Ec.
  - unfold commits_at in Ec.
    destruct (inflight s !! i) as [[w p]|] eqn:Hi; [|discriminate].
    destruct p as [| | | |m' tid' o|]; try discriminate.
    destruct (resume_at i s w _ Hi) as (Hst & Hnext). rewrite Hnext in Ec.
    destruct (step w (AwaitJson m' tid' o) (store s)).2 as [| | | | |r] eqn:Ep;
      try discriminate.
    apply bool_decide_eq_true in Ec as (-> & -> & Hs).
    destruct (step_answer w _ (store s) r Ep Hs ltac:(discriminate))
      as (m0 & tid0 & o0 & [= <- <- <-] & Hplus & _).
    by rewrite Hst.
  - destruct (resume_delta i s tid m) as [->|(_ & w & o & txt & Hi & Hnext)]; [lia|].
    unfold commits_at in Ec. rewrite Hi, Hnext in Ec.
    rewrite bool_decide_eq_true_2 in Ec; [discriminate|auto].
Qed.

Lemma run_accounting (schedule : list nat) (s : server) (tid : value) (m : model_id) :
  usage_count (store (run schedule s)) tid m =
    usage_count (store s) tid m + commits tid m schedule s.
Proof.
  revert s. induction schedule as [|i rest IH]; intros s; simpl; [lia|].
  rewrite IH, resume_accounting. lia.
Qed.

(** C9, as the handler has it. The handler takes no lock: the quota check and
    the commit are separate runs with the completion call between them, and
    other requests may run there.  Requests handled one after the other never
    take a count beyond its ceiling; requests in flight together can pass the
    check at the same count, and then the count ends at most as many above the
    ceiling as there are other requests in flight.  Under every interleaving
    no reply is counted twice and none is lost: a count moves only by one and
    only in the turn in which a request of that subscriber for that model is
    answered with status 200; every turn in which a request is answered with
    status 200 adds one to the count of its subscriber for its model and to no
    other; an answered request runs no more and leaves the tracker alone; so
    a count ends at what it was plus the number of such answers. *)
Theorem quota_without_critical_section :
  (forall requests t tid m,
     usage_count t tid m <= quotas m ->
     usage_count (serve requests t) tid m <= quotas m) /\
  (forall requests t schedule tid m,
     requests <> [] ->
     usage_count t tid m <= quotas m ->
     usage_count (store (run schedule {| store := t; inflight := arriving requests |})) tid m
       <= quotas m + Z.of_nat (length requests) - 1) /\
  (forall i s tid m,
     usage_count (store (resume i s)) tid m = usage_count (store s) tid m \/
     (usage_count (store (resume i s)) tid m = usage_count (store s) tid m + 1 /\
      exists w o txt,
        inflight s !! i = Some (w, AwaitJson m tid o) /\
        inflight (resume i s) !! i =
          Some (w, Responded {| status := 200; body := reply txt |}))) /\
  (forall i s w p r,
     inflight s !! i = Some (w, p) ->
     (forall r0, p <> Responded r0) ->
     inflight (resume i s) !! i = Some (w, Responded r) ->
     status r = 200 ->
     exists m tid o,
       p = AwaitJson m tid o /\
       usage_count (store (resume i s)) tid m = usage_count (store s) tid m + 1 /\
       (forall k m', ~ (k = tid /\ m' = m) ->
          usage_count (store (resume i s)) k m' = usage_count (store s) k m')) /\
  (forall i s w r,
     inflight s !! i = Some (w, Responded r) ->
     store (resume i s) = store s /\
     inflight (resume i s) !! i = Some (w, Responded r)) /\
  (forall schedule s tid m,
     usage_count (store (run schedule s)) tid m =
       usage_count (store s) tid m + commits tid m schedule s).
Proof.
  split; [exact serve_bound|]. split; [|split; [exact resume_delta|]].
  { intros requests t schedule tid m Hne Hle.
    pose proof (run_bound schedule {| store := t; inflight := arriving requests |} tid m) as H.
    simpl in H. rewrite checked_arriving in H.
    assert (Hlen : length (arriving requests) = length requests) by apply length_map.
    rewrite Hlen in H. apply H.
    destruct requests; [congruence|]. simpl. lia. }
  split; [|split; [|exact run_accounting]].
  - intros i s w p r Hi Hp Hnext Hs.
    destruct (resume_at i s w p Hi) as (Hst & Hnext'). rewrite Hnext' in Hnext.
    injection Hnext as Hr. rewrite Hst. by eapply step_answer.
  - intros i s w r Hi. by destruct (resume_at i s w _ Hi) as (Hst & Hnext).
Qed.

Lemma quota_without_critical_section_witness :
  let requests := [(premium_world, request "gpt-4"); (premium_world, request "gpt-4")] in
  usage_count (premium_at 799) T1 Gpt4 <= quotas Gpt4 /\
  usage_count (serve requests (premium_at 799)) T1 Gpt4 = 800 /\
  usage_count (serve requests (premium_at 799)) T1 Gpt4 <= quotas Gpt4 /\
  usage_count (store (run [0; 1; 0; 1; 0; 1; 0; 1]%nat
                        {| store := premium_at 799; inflight := arriving requests |}))
    T1 Gpt4 <= quotas Gpt4 + Z.of_nat (length requests) - 1 /\
  commits T1 Gpt4 [0; 1; 0; 1; 0; 1; 0; 1]%nat
    {| store := premium_at 799; inflight := arriving requests |} = 2 /\
  usage_count (store (run [0; 1; 0; 1; 0; 1; 0; 1]%nat
                        {| store := premium_at 799; inflight := arriving requests |}))
    T1 Gpt4 = 799 + 2.
Proof.
  intros requests.
  assert (H : usage_count (premium_at 799) T1 Gpt4 <= quotas Gpt4).
  { vm_compute. discriminate. }
  split; [exact H|]. split; [reflexivity|].
  destruct quota_without_critical_section as (Hserve & Hrun & _ & _ & _ & Hacc).
  split; [exact (Hserve requests (premium_at 799) T1 Gpt4 H)|].
  split; [exact (Hrun requests (premium_at 799) [0; 1; 0; 1; 0; 1; 0; 1]%nat T1 Gpt4
                   ltac:(discriminate) H)|].
  assert (Hc : commits T1 Gpt4 [0; 1; 0; 1; 0; 1; 0; 1]%nat
                 {| store := premium_at 799; inflight := arriving requests |} = 2).
  { vm_compute. reflexivity. }
  split; [exact Hc|]. rewrite Hacc, Hc. reflexivity.
Defined.

(** C9, as stated, fails. Two premium requests of one subscriber arrive at
    count 799, one below the ceiling of 800.  The event loop runs each up to
    its completion call: both have passed the check, at the same count 799.
    Both come back with a reply and commit: the count ends at 801. *)
Lemma concurrent_requests_overshoot :
  let s := two_premium_requests 799 in
  let halfway := run [0; 1; 0; 1]%nat s in
  let finally := run [0; 1; 0; 1; 0; 1; 0; 1]%nat s in
  usage_count (store s) T1 Gpt4 = 799 /\
  map snd (inflight halfway) =
    [AwaitFetch (js "Hello") Gpt4 T1; AwaitFetch (js "Hello") Gpt4 T1] /\
  usage_count (store halfway) T1 Gpt4 = 799 /\
  map snd (inflight finally) =
    [Responded {| status := 200; body := reply (js "Hi there") |};
     Responded {| status := 200; body := reply (js "Hi there") |}] /\
  usage_count (store finally) T1 Gpt4 = 801 /\
  quotas Gpt4 = 800 /\
  ~ ceiling_respected s.
Proof.
  intros s halfway finally.
  assert (Hend : usage_count (store finally) T1 Gpt4 = 801) by (vm_compute; reflexivity).
  repeat split; try (vm_compute; reflexivity); try exact Hend.
  intros Hc.
  specialize (Hc [0; 1; 0; 1; 0; 1; 0; 1]%nat T1 Gpt4 ltac:(vm_compute; discriminate)).
  fold s in Hc. fold finally in Hc. rewrite Hend in Hc. vm_compute in Hc. by apply Hc.
Qed.

(** * Further properties of the code *)

(** ** Trimming *)

Lemma trim_start_clean (s : jsstring) : clean_start (trim_start s).
Proof.
  induction s as [|c s IH]; simpl; [exact I|].
  destruct (is_white_space c) eqn:E; [exact IH|exact E].
Qed.

Lemma trim_start_id (s : jsstring) : clean_start s -> trim_start s = s.
Proof. destruct s as [|c s]; simpl; [reflexivity|]. by intros ->. Qed.

(** What [trim_start] takes away is white space only. *)
Lemma trim_start_split (s : jsstring) :
  exists blanks, s = blanks ++ trim_start s /\ forallb is_white_space blanks = true.
Proof.
  induction s as [|c s (blanks & Hs & Hb)]; simpl; [by exists []|].
  destruct (is_white_space c) eqn:E.
  - exists (c :: blanks). simpl. rewrite E, Hb. split; [by f_equal|reflexivity].
  - by exists [].
Qed.

Lemma trim_end_split (s : jsstring) :
  exists blanks, s = trim_end s ++ blanks /\ forallb is_white_space blanks = true.
Proof.
  unfold trim_end. destruct (trim_start_split (rev s)) as (blanks & Hs & Hb).
  exists (rev blanks). split.
  - rewrite <- rev_app_distr, <- Hs. by rewrite rev_involutive.
  - rewrite forallb_forall in *. intros c Hc. apply Hb. by apply in_rev.
Qed.

Lemma trim_end_clean_start (s : jsstring) : clean_start s -> clean_start (trim_end s).
Proof.
  intros H. destruct (trim_end_split s) as (blanks & Hs & _).
  destruct (trim_end s) as [|c u]; [exact I|].
  rewrite Hs in H. exact H.
Qed.

Lemma trim_clean (s : jsstring) : clean (trim s).
Proof.
  unfold clean, trim. split.
  - apply trim_end_clean_start, trim_start_clean.
  - unfold trim_end. rewrite rev_involutive. apply trim_start_clean.
Qed.

Lemma trim_id (s : jsstring) : clean s -> trim s = s.
Proof.
  intros [H1 H2]. unfold trim, trim_end.
  rewrite (trim_start_id s H1), (trim_start_id (rev s) H2). apply rev_involutive.
Qed.

Lemma trim_idempotent (s : jsstring) : trim (trim s) = trim s.
Proof. apply trim_id, trim_clean. Qed.

(** The reply text, when there is one, is a trimmed string. *)
Lemma replyText_trimmed (j : json) (txt : jsstring) :
  replyText j = Fulfilled (Some txt) -> exists s, txt = trim s.
Proof.
  unfold replyText. destruct j;
    try discriminate;
    (destruct (optional (property (js "content")) _) as [[| | |s| |]|];
     try discriminate; intros [= <-]; by exists s).
Qed.

(** ** The three roads of a request, in full *)

Lemma chat_roads (w : world) (b : chat_body) (t : tracker) :
  (exists r, validate b = inl r /\ status r = 400 /\ (exists msg, body r = error msg) /\
             chat w b t = {| res := r; usageTracker := t; calls := [] |}) \/
  (exists rcpt prmt mdl k,
      validate b = inr (rcpt, prmt, mdl) /\ rejected_with w b t k /\
      res (chat w b t) = denied (message_of k) /\
      calls (chat w b t) = [CallVerifyReceipt rcpt (validationOptions w)] /\
      (usageTracker (chat w b t) = t \/
       exists e, entitled w b prmt mdl e /\
                 usageTracker (chat w b t) = ensure_record (original_transaction_id e) t)) \/
  (exists rcpt prmt mdl e,
      validate b = inr (rcpt, prmt, mdl) /\ entitled w b prmt mdl e /\
      usage_count t (original_transaction_id e) mdl < quotas mdl /\
      let tid := original_transaction_id e in
      let out := forwarded mdl tid (fetch w mdl (trim prmt)) (ensure_record tid t) in
      chat w b t =
        {| res := out.2; usageTracker := out.1;
           calls := [CallVerifyReceipt rcpt (validationOptions w);
                     CallFetch mdl (trim prmt)] |}).
Proof.
  destruct (validate b) as [r|[[rcpt prmt] mdl]] eqn:Hv.
  { left. exists r. split; [reflexivity|]. split; [by eapply validate_status|].
    split; [|by apply chat_invalid].
    unfold validate in Hv. destruct (blank (receipt b)); [injection Hv as <-; by eexists|].
    destruct (blank (prompt b)); [injection Hv as <-; by eexists|].
    destruct (supported_model (model b)); [discriminate|injection Hv as <-; by eexists]. }
  right.
  destruct (verifyReceipt w rcpt (validationOptions w)) as [r|] eqn:Hr.
  2: { left. exists rcpt, prmt, mdl, ReceiptVerificationFailed.
       rewrite (chat_unverified w b t rcpt prmt mdl Hv Hr). simpl.
       split; [reflexivity|]. split; [by exists rcpt, prmt, mdl|]. auto. }
  destruct (entitlement w mdl r) as [e|] eqn:He.
  2: { left. exists rcpt, prmt, mdl, NoActiveSubscription.
       rewrite (chat_unsubscribed w b t rcpt prmt mdl r Hv Hr He). simpl.
       split; [reflexivity|]. split; [exists rcpt, prmt, mdl; eauto|]. auto. }
  assert (Hent : entitled w b prmt mdl e) by (exists rcpt, r; auto).
  pose proof (chat_entitled w b t rcpt prmt mdl r e Hv Hr He) as Hc. cbv zeta in Hc.
  destruct (quotas mdl <=? usage_count t (original_transaction_id e) mdl) eqn:Hq.
  - left. exists rcpt, prmt, mdl, QuotaExceeded. rewrite Hc. simpl.
    apply Z.leb_le in Hq.
    split; [reflexivity|]. split; [exists rcpt, prmt, mdl; eauto|].
    split; [reflexivity|]. split; [reflexivity|]. right. by exists e.
  - right. exists rcpt, prmt, mdl, e. apply Z.leb_gt in Hq. auto.
Qed.

Lemma forwarded_res (mdl : model_id) (tid : value) (answer : settled openaiResponse)
    (t : tracker) :
  let r := (forwarded mdl tid answer (ensure_record tid t)).2 in
  (status r = 500 /\ exists msg, body r = error msg) \/
  (status r = 200 /\ exists txt, body r = reply txt /\ txt <> [] /\ clean txt).
Proof.
  cbv zeta. unfold forwarded. destruct answer as [o|]; [|left; simpl; eauto].
  destruct (ok o); [|left; destruct (text o); simpl; eauto].
  unfold commit. destruct (json_of o) as [j|]; [|left; simpl; eauto].
  destruct (replyText j) as [[[|c txt]|]|] eqn:E; try (left; simpl; by eauto).
  rewrite ensure_record_lookup. simpl. right. split; [reflexivity|].
  exists (c :: txt). split; [reflexivity|]. split; [discriminate|].
  destruct (replyText_trimmed j _ E) as (s0 & ->). apply trim_clean.
Qed.

(** ** The response *)

(** X1. The handler answers with status 200, 400, 403 or 500 and nothing
    else; the body is a reply exactly when the status is 200, an error
    message otherwise; and a reply is never empty and neither begins nor ends
    with white space. *)
Theorem response_contract (w : world) (b : chat_body) (t : tracker) :
  (status (res (chat w b t)) = 200 \/ status (res (chat w b t)) = 400 \/
   status (res (chat w b t)) = 403 \/ status (res (chat w b t)) = 500) /\
  (status (res (chat w b t)) = 200 <-> exists txt, body (res (chat w b t)) = reply txt) /\
  (forall txt, body (res (chat w b t)) = reply txt -> txt <> [] /\ clean txt).
Proof.
  destruct (chat_roads w b t)
    as [(r & _ & Hs & (msg & Hb) & ->)
       |[(rcpt & prmt & mdl & k & _ & _ & -> & _)
        |(rcpt & prmt & mdl & e & _ & _ & _ & ->)]]; simpl.
  - rewrite Hs, Hb. split; [auto|]. split; [|discriminate].
    split; [discriminate|]. by intros (? & ?).
  - split; [auto|]. split; [|discriminate]. split; [discriminate|]. by intros (? & ?).
  - destruct (forwarded_res mdl (original_transaction_id e) (fetch w mdl (trim prmt)) t)
      as [(Hs & msg & Hb)|(Hs & txt & Hb & Hne & Hcl)]; rewrite Hs, Hb.
    + split; [auto|]. split; [|discriminate]. split; [discriminate|]. by intros (? & ?).
    + split; [auto|]. split; [split; eauto|]. by intros ? [= <-].
Qed.

(** ** The calls to the two services *)

(** X2. A request makes no call and is answered 400, or calls the verifier
    alone, with the receipt exactly as sent and the environment of the
    process, and is answered 403, or calls the verifier and then the
    completion service, once each, with the requested model and the trimmed
    prompt, and is answered 200 or 500. *)
Theorem calls_made (w : world) (b : chat_body) (t : tracker) :
  match calls (chat w b t) with
  | [] => status (res (chat w b t)) = 400
  | [CallVerifyReceipt rcpt env] =>
      receipt b = Some (JString rcpt) /\
      env = (if production w then Production else Sandbox) /\
      status (res (chat w b t)) = 403
  | [CallVerifyReceipt rcpt env; CallFetch mdl p] =>
      receipt b = Some (JString rcpt) /\
      env = (if production w then Production else Sandbox) /\
      model b = Some (JString (model_name mdl)) /\
      (exists prmt, prompt b = Some (JString prmt) /\ p = trim prmt) /\
      (status (res (chat w b t)) = 200 \/ status (res (chat w b t)) = 500)
  | _ => False
  end.
Proof.
  destruct (chat_roads w b t)
    as [(r & _ & Hs & _ & ->)
       |[(rcpt & prmt & mdl & k & Hv & _ & Hres & -> & _)
        |(rcpt & prmt & mdl & e & Hv & _ & _ & ->)]]; simpl.
  - exact Hs.
  - apply validate_passes in Hv as ((Hr & _) & _). rewrite Hres. auto.
  - apply validate_passes in Hv as ((Hr & _) & (Hp & _) & Hm).
    split; [exact Hr|]. split; [reflexivity|]. split; [exact Hm|]. split; [eauto|].
    destruct (forwarded_res mdl (original_transaction_id e) (fetch w mdl (trim prmt)) t)
      as [(Hs & _)|(Hs & _)]; auto.
Qed.

(** X3. The prompt handed to the completion service is never empty and
    neither begins nor ends with white space. *)
Theorem forwarded_prompt_clean (w : world) (b : chat_body) (t : tracker)
    (mdl : model_id) (p : jsstring) :
  In (CallFetch mdl p) (calls (chat w b t)) -> p <> [] /\ clean p.
Proof.
  destruct (chat_roads w b t)
    as [(r & _ & _ & _ & ->)
       |[(rcpt & prmt & mdl' & k & _ & _ & _ & -> & _)
        |(rcpt & prmt & mdl' & e & Hv & _ & _ & ->)]]; simpl.
  - intros [].
  - intros [[=]|[]].
  - intros [[=]|[[= <- <-]|[]]].
    apply validate_passes in Hv as (_ & (_ & Hne) & _).
    split; [exact Hne|apply trim_clean].
Qed.

Lemma forwarded_prompt_clean_witness :
  In (CallFetch Gpt4 (js "Hello"))
     (calls (chat premium_world
               {| receipt := Some (JString (js "cmVjZWlwdA=="));
                  prompt := Some (JString (js "  Hello  "));
                  model := Some (JString (js "gpt-4")) |} ∅)) /\
  js "Hello" <> [] /\ clean (js "Hello").
Proof.
  assert (H : In (CallFetch Gpt4 (js "Hello"))
     (calls (chat premium_world
               {| receipt := Some (JString (js "cmVjZWlwdA=="));
                  prompt := Some (JString (js "  Hello  "));
                  model := Some (JString (js "gpt-4")) |} ∅))).
  { vm_compute. right. left. reflexivity. }
  split; [exact H|]. exact (forwarded_prompt_clean _ _ _ _ _ H).
Defined.

(** ** Failures of the completion service *)

(** X4. For an entitled request below its ceiling: when the call to the
    completion service fails outright, or reading the body of its answer
    fails, the answer is 500 with the message of an internal fault; when the
    service answers without success and the body can be read, the answer is
    500 with the message for a failed exchange.  In each case the tracker is
    the one before the request with the subscriber's record in place. *)
Theorem upstream_failure_answers (w : world) (b : chat_body) (t : tracker)
    (prmt : jsstring) (mdl : model_id) (e : entry) :
  entitled w b prmt mdl e ->
  usage_count t (original_transaction_id e) mdl < quotas mdl ->
  (fetch w mdl (trim prmt) = Rejected ->
     res (chat w b t) = {| status := 500; body := error "Internal server error." |} /\
     usageTracker (chat w b t) = ensure_record (original_transaction_id e) t) /\
  (forall o, fetch w mdl (trim prmt) = Fulfilled o -> ok o = false ->
     res (chat w b t) =
       match text o with
       | Fulfilled _ => {| status := 500; body := error "Error communicating with OpenAI." |}
       | Rejected => {| status := 500; body := error "Internal server error." |}
       end /\
     usageTracker (chat w b t) = ensure_record (original_transaction_id e) t) /\
  (forall o, fetch w mdl (trim prmt) = Fulfilled o -> ok o = true ->
     json_of o = Rejected ->
     res (chat w b t) = {| status := 500; body := error "Internal server error." |} /\
     usageTracker (chat w b t) = ensure_record (original_transaction_id e) t).
Proof.
  intros He Hq. rewrite (chat_forwarded w b t prmt mdl e He Hq). cbv zeta. simpl.
  unfold forwarded. split; [|split].
  - intros ->. split; reflexivity.
  - intros o -> ->. simpl. split; [|reflexivity]. by destruct (text o).
  - intros o -> -> Hj. unfold commit. rewrite Hj. split; reflexivity.
Qed.

Lemma upstream_failure_answers_witness :
  let busy := Fulfilled {| ok := false; text := Fulfilled (js "overloaded");
                           json_of := Rejected |} in
  let w := sample_world (receipt_with [subscription "com.omegaai.chat4" "2000" "1000"])
             busy 1500 in
  entitled w (request "gpt-4") (js "Hello") Gpt4
    (subscription "com.omegaai.chat4" "2000" "1000") /\
  usage_count ∅ T1 Gpt4 < quotas Gpt4 /\
  res (chat w (request "gpt-4") ∅) =
    {| status := 500; body := error "Error communicating with OpenAI." |} /\
  usageTracker (chat w (request "gpt-4") ∅) = ensure_record T1 ∅.
Proof.
  intros busy w.
  assert (He : entitled w (request "gpt-4") (js "Hello") Gpt4
                 (subscription "com.omegaai.chat4" "2000" "1000")).
  { exists (js "cmVjZWlwdA=="), {| latest_receipt_info :=
        Some [subscription "com.omegaai.chat4" "2000" "1000"] |}.
    split; [reflexivity|]. split; reflexivity. }
  assert (Hq : usage_count ∅ T1 Gpt4 < quotas Gpt4) by reflexivity.
  split; [exact He|]. split; [exact Hq|].
  destruct (upstream_failure_answers w (request "gpt-4") ∅ (js "Hello") Gpt4 _ He Hq)
    as (_ & H2 & _).
  exact (H2 _ eq_refl eq_refl).
Defined.

(** ** The footprint of a request on the tracker *)

Lemma subscriber_of_None (w : world) (b : chat_body) (t : tracker) :
  subscriber_of w b = None ->
  usageTracker (chat w b t) = t /\
  (status (res (chat w b t)) = 400 \/ status (res (chat w b t)) = 403) /\
  no_fetch (calls (chat w b t)).
Proof.
  unfold subscriber_of. destruct (validate b) as [r|[[rcpt prmt] mdl]] eqn:Hv.
  { intros _. rewrite (chat_invalid w b t r Hv). simpl.
    split; [reflexivity|]. split; [left; by eapply validate_status|reflexivity]. }
  destruct (verifyReceipt w rcpt (validationOptions w)) as [r|] eqn:Hr.
  2: { intros _. rewrite (chat_unverified w b t rcpt prmt mdl Hv Hr). simpl.
       split; [reflexivity|]. split; [right; reflexivity|reflexivity]. }
  destruct (entitlement w mdl r) as [e|] eqn:He; [discriminate|].
  intros _. rewrite (chat_unsubscribed w b t rcpt prmt mdl r Hv Hr He). simpl.
  split; [reflexivity|]. split; [right; reflexivity|reflexivity].
Qed.

Lemma subscriber_of_Some (w : world) (b : chat_body) (tid : value) (m : model_id) :
  subscriber_of w b = Some (tid, m) <->
  exists prmt e, entitled w b prmt m e /\ tid = original_transaction_id e.
Proof.
  unfold subscriber_of, entitled. split.
  - destruct (validate b) as [r|[[rcpt prmt] mdl]]; [discriminate|].
    destruct (verifyReceipt w rcpt (validationOptions w)) as [r|] eqn:Hr; [|discriminate].
    destruct (entitlement w mdl r) as [e|] eqn:He; [|discriminate].
    intros [= <- <-]. exists prmt, e. split; [|reflexivity]. exists rcpt, r. auto.
  - intros (prmt & e & (rcpt & r & -> & -> & ->) & ->). reflexivity.
Qed.

(** What a request of subscriber [tid] for model [m] leaves in the tracker. *)
Lemma chat_tracker (w : world) (b : chat_body) (t : tracker) (tid : value) (m : model_id) :
  subscriber_of w b = Some (tid, m) ->
  (status (res (chat w b t)) <> 200 /\ usageTracker (chat w b t) = ensure_record tid t) \/
  (status (res (chat w b t)) = 200 /\
   usage_count t tid m < quotas m /\
   usageTracker (chat w b t) =
     <[tid := increment (default fresh_usage (t !! tid)) m]> (ensure_record tid t)).
Proof.
  intros Hs. apply subscriber_of_Some in Hs as (prmt & e & He & ->).
  pose proof He as (rcpt & r & Hv & Hr & Hent).
  pose proof (chat_entitled w b t rcpt prmt m r e Hv Hr Hent) as Hc. cbv zeta in Hc.
  destruct (quotas m <=? usage_count t (original_transaction_id e) m) eqn:Hq.
  { rewrite Hc. simpl. left. split; [discriminate|reflexivity]. }
  apply Z.leb_gt in Hq. rewrite Hc. simpl.
  destruct (forwarded_cases m (original_transaction_id e) (fetch w m (trim prmt))
              (ensure_record (original_transaction_id e) t))
    as [(r0 & -> & Hst)|(o & j & txt & u & _ & _ & _ & _ & _ & Hu & ->)]; simpl.
  - left. split; [rewrite Hst; discriminate|reflexivity].
  - right. split; [reflexivity|]. split; [exact Hq|].
    rewrite ensure_record_lookup in Hu. injection Hu as <-. reflexivity.
Qed.

(** X5. A request that is not entitled leaves the tracker exactly as it was.
    An entitled request of subscriber [tid] for model [m] leaves a record for
    [tid] in place, leaves the record of every other subscriber as it was
    (present or absent), and leaves the count of [tid] for the other model as
    it was. *)
Theorem tracker_footprint (w : world) (b : chat_body) (t : tracker) :
  match subscriber_of w b with
  | None => usageTracker (chat w b t) = t
  | Some (tid, m) =>
      is_Some (usageTracker (chat w b t) !! tid) /\
      (forall k, k <> tid -> usageTracker (chat w b t) !! k = t !! k) /\
      (forall m', m' <> m ->
         usage_count (usageTracker (chat w b t)) tid m' = usage_count t tid m')
  end.
Proof.
  destruct (subscriber_of w b) as [[tid m]|] eqn:Hs.
  2: { by apply subscriber_of_None. }
  destruct (chat_tracker w b t tid m Hs) as [(_ & ->)|(_ & _ & ->)].
  - split; [rewrite ensure_record_lookup; eauto|].
    split; [intros k Hk; by apply ensure_record_other|].
    intros m' _. apply ensure_record_count.
  - split; [rewrite lookup_insert_eq; eauto|]. split.
    + intros k Hk. rewrite lookup_insert_ne by congruence. by apply ensure_record_other.
    + intros m' Hm.
      rewrite (usage_count_commit _ _ _ _ _ _ (ensure_record_lookup tid t)).
      rewrite ensure_record_count. case_decide; [tauto|reflexivity].
Qed.

(** ** What the answer depends on *)

Lemma forwarded_res_indep (mdl : model_id) (tid : value) (answer : settled openaiResponse)
    (t1 t2 : tracker) :
  (forwarded mdl tid answer (ensure_record tid t1)).2 =
  (forwarded mdl tid answer (ensure_record tid t2)).2.
Proof.
  unfold forwarded. destruct answer as [o|]; [|reflexivity].
  destruct (ok o); [|reflexivity].
  unfold commit. destruct (json_of o) as [j|]; [|reflexivity].
  destruct (replyText j) as [[[|c txt]|]|]; try reflexivity.
  by rewrite !ensure_record_lookup.
Qed.

(** X6. The answer to a request and the calls it makes depend on the tracker
    only through the count of the request's own subscriber for the requested
    model: the counts of other subscribers and of the other model play no
    part. *)
Theorem other_counts_irrelevant (w : world) (b : chat_body) (t1 t2 : tracker) :
  (forall tid m, subscriber_of w b = Some (tid, m) ->
                 usage_count t1 tid m = usage_count t2 tid m) ->
  res (chat w b t1) = res (chat w b t2) /\
  calls (chat w b t1) = calls (chat w b t2).
Proof.
  intros Hsame.
  destruct (validate b) as [r|[[rcpt prmt] mdl]] eqn:Hv.
  { by rewrite !(chat_invalid w b _ r Hv). }
  destruct (verifyReceipt w rcpt (validationOptions w)) as [r|] eqn:Hr.
  2: { by rewrite !(chat_unverified w b _ rcpt prmt mdl Hv Hr). }
  destruct (entitlement w mdl r) as [e|] eqn:He.
  2: { by rewrite !(chat_unsubscribed w b _ rcpt prmt mdl r Hv Hr He). }
  rewrite !(chat_entitled w b _ rcpt prmt mdl r e Hv Hr He). cbv zeta.
  assert (Hs : subscriber_of w b = Some (original_transaction_id e, mdl)).
  { apply subscriber_of_Some. exists prmt, e. split; [|reflexivity]. exists rcpt, r. auto. }
  rewrite (Hsame _ _ Hs).
  destruct (quotas mdl <=? usage_count t2 (original_transaction_id e) mdl); simpl;
    [split; reflexivity|].
  split; [apply forwarded_res_indep|reflexivity].
Qed.

Lemma other_counts_irrelevant_witness :
  let crowded : tracker :=
    <[VString (js "T2") := {| gpt35 := 5000; gpt4 := 800 |}]>
      (<[T1 := {| gpt35 := 5000; gpt4 := 0 |}]> ∅) in
  (forall tid m, subscriber_of premium_world (request "gpt-4") = Some (tid, m) ->
                 usage_count ∅ tid m = usage_count crowded tid m) /\
  res (chat premium_world (request "gpt-4") crowded) =
    {| status := 200; body := reply (js "Hi there") |}.
Proof.
  intros crowded.
  assert (H : forall tid m, subscriber_of premium_world (request "gpt-4") = Some (tid, m) ->
                            usage_count ∅ tid m = usage_count crowded tid m).
  { intros tid m Hs. vm_compute in Hs. injection Hs as <- <-. reflexivity. }
  split; [exact H|].
  destruct (other_counts_irrelevant premium_world (request "gpt-4") ∅ crowded H) as (Hres & _).
  rewrite <- Hres. reflexivity.
Defined.

(** ** Accounting over a sequence of requests *)

Lemma chat_accounting (w : world) (b : chat_body) (t : tracker) (tid : value) (m : model_id) :
  usage_count (usageTracker (chat w b t)) tid m =
    usage_count t tid m +
    (if bool_decide (subscriber_of w b = Some (tid, m) /\ status (res (chat w b t)) = 200)
     then 1 else 0).
Proof.
  destruct (subscriber_of w b) as [[tid0 m0]|] eqn:Hs.
  2: { destruct (subscriber_of_None w b t Hs) as (-> & _).
       rewrite bool_decide_eq_false_2; [lia|]. by intros [? _]. }
  destruct (chat_tracker w b t tid0 m0 Hs) as [(Hst & ->)|(Hst & _ & ->)].
  - rewrite ensure_record_count. rewrite bool_decide_eq_false_2; [lia|]. by intros [_ ?].
  - rewrite (usage_count_commit _ _ _ _ _ _ (ensure_record_lookup tid0 t)).
    rewrite ensure_record_count.
    case_decide as Hd; case_bool_decide as Hb; try lia.
    + destruct Hb. destruct Hd as [-> ->]. auto.
    + destruct Hd. destruct Hb as [[= -> ->] _]. auto.
Qed.

Lemma sequential_accounting_eq (requests : list (world * chat_body)) (t : tracker)
    (tid : value) (m : model_id) :
  usage_count (serve requests t) tid m = usage_count t tid m + replies tid m requests t.
Proof.
  revert t. induction requests as [|[w b] rest IH]; intros t; simpl; [lia|].
  rewrite IH, (chat_accounting w b t tid m). lia.
Qed.

Lemma replies_nonneg (tid : value) (m : model_id) (requests : list (world * chat_body))
    (t : tracker) :
  0 <= replies tid m requests t.
Proof.
  revert t. induction requests as [|[w b] rest IH]; intros t; simpl; [lia|].
  specialize (IH (usageTracker (chat w b t))). case_bool_decide; lia.
Qed.

(** X7. The count of a subscriber for a model after a request is what it
    was, plus one exactly when the request is that subscriber's, for that
    model, and got a reply.  So when requests are handled one after the other,
    the count ends at what it was plus the number of that subscriber's
    requests for that model that got a reply: every reply is counted, once,
    and nothing else is. *)
Theorem sequential_accounting (requests : list (world * chat_body)) (t : tracker)
    (tid : value) (m : model_id) :
  (forall w b,
     usage_count (usageTracker (chat w b t)) tid m =
       usage_count t tid m +
       (if bool_decide (subscriber_of w b = Some (tid, m) /\
                        status (res (chat w b t)) = 200)
        then 1 else 0)) /\
  usage_count (serve requests t) tid m = usage_count t tid m + replies tid m requests t /\
  0 <= replies tid m requests t.
Proof.
  split; [intros w b; apply chat_accounting|].
  split; [apply sequential_accounting_eq|apply replies_nonneg].
Qed.

(** X8. When requests are handled one after the other from a count within the
    ceiling, a subscriber gets at most as many replies for a model as the
    ceiling leaves room for; from a count at the ceiling it gets none, and the
    count stays at the ceiling. *)
Theorem replies_within_quota (requests : list (world * chat_body)) (t : tracker)
    (tid : value) (m : model_id) :
  usage_count t tid m <= quotas m ->
  replies tid m requests t <= quotas m - usage_count t tid m /\
  (usage_count t tid m = quotas m ->
     replies tid m requests t = 0 /\ usage_count (serve requests t) tid m = quotas m).
Proof.
  intros Hle.
  pose proof (serve_bound requests t tid m Hle) as Hb.
  pose proof (replies_nonneg tid m requests t) as Hn.
  rewrite sequential_accounting_eq in Hb. split; [lia|].
  intros Heq. split; [lia|]. rewrite sequential_accounting_eq. lia.
Qed.

Lemma replies_within_quota_witness :
  let requests := [(premium_world, request "gpt-4"); (premium_world, request "gpt-4");
                   (premium_world, request "gpt-4")] in
  usage_count (premium_at 799) T1 Gpt4 <= quotas Gpt4 /\
  replies T1 Gpt4 requests (premium_at 799) = 1 /\
  replies T1 Gpt4 requests (premium_at 799)
    <= quotas Gpt4 - usage_count (premium_at 799) T1 Gpt4.
Proof.
  intros requests.
  assert (H : usage_count (premium_at 799) T1 Gpt4 <= quotas Gpt4).
  { vm_compute. discriminate. }
  split; [exact H|]. split; [reflexivity|].
  exact (proj1 (replies_within_quota requests (premium_at 799) T1 Gpt4 H)).
Defined.

(** ** Whether access is granted *)

Lemma validTransaction_steady (now : nat -> Z) (nowMs : Z) (pid : jsstring)
    (l : list entry) (i : nat) :
  (forall k, now k = nowMs) ->
  validTransaction now i pid l = None <->
  (forall e, e ∈ l -> for_product pid e = true -> unexpired nowMs e = false).
Proof.
  intros Hnow. rewrite validTransaction_None. split.
  - intros H e Hin Hp. apply list_elem_of_split in Hin as (l1 & l2 & ->).
    rewrite <- (Hnow (i + readings pid l1)%nat). by eapply H.
  - intros H l1 e l2 -> Hp. rewrite Hnow. apply H; [|exact Hp].
    apply elem_of_app. right. by left.
Qed.

(** X9. When the clock stands still during the scan, access is granted
    exactly when the verifier's list has an entry of the product that is
    unexpired: the sort, and with it the purchase times, well formed or not,
    bear on which entry is chosen but not on whether one is. *)
Theorem access_iff_unexpired_entry (w : world) (mdl : model_id) (r : appleResponse)
    (nowMs : Z) :
  (forall k, Date_now w k = nowMs) ->
  (is_Some (entitlement w mdl r) <->
   exists e, e ∈ inApp r /\ for_product (productID mdl) e = true /\
             unexpired nowMs e = true).
Proof.
  intros Hnow. unfold entitlement. split.
  - intros [e He]. destruct (validTransaction_sound _ _ _ _ _ He) as (Hin & Hp & _).
    apply validTransaction_Some in He as (l1 & l2 & _ & _ & Hu & _).
    rewrite Hnow in Hu. exists e. split; [by rewrite <- (sort_perm (inApp r))|auto].
  - intros (e & Hin & Hp & Hu).
    destruct (validTransaction (Date_now w) 0 (productID mdl) (sort (inApp r))) eqn:E;
      [eauto|exfalso].
    rewrite (validTransaction_steady _ nowMs) in E by assumption.
    rewrite (E e) in Hu; [discriminate| |exact Hp]. by rewrite sort_perm.
Qed.

Lemma access_iff_unexpired_entry_witness :
  let undated := {| product_id := VString (js "com.omegaai.chat4");
                    original_transaction_id := T1;
                    expires_date_ms := VString (js "2000");
                    purchase_date_ms := VUndefined |} in
  let r := {| latest_receipt_info :=
                Some [subscription "com.omegaai.chat3" "2000" "1000"; undated] |} in
  let w := sample_world (Fulfilled r) (answers "Hi there") 1500 in
  (forall k, Date_now w k = 1500) /\ is_Some (entitlement w Gpt4 r).
Proof.
  intros undated r w.
  assert (H : forall k, Date_now w k = 1500) by reflexivity.
  split; [exact H|].
  apply (access_iff_unexpired_entry w Gpt4 r 1500 H).
  exists undated. split; [|split; reflexivity].
  apply list_elem_of_In. simpl. auto.
Defined.

(** ** Entries of the other product *)

Lemma validTransaction_filter (now : nat -> Z) (pid : jsstring) (l : list entry) :
  forall i,
    validTransaction now i pid (List.filter (for_product pid) l) =
    validTransaction now i pid l.
Proof.
  induction l as [|x l IH]; intros i; simpl; [reflexivity|].
  destruct (for_product pid x) eqn:Hp; simpl; [|apply IH].
  rewrite Hp. destruct (unexpired (now i) x); [reflexivity|apply IH].
Qed.

Lemma purchased_filter (p : Z) (keep : entry -> bool) (l : list entry) :
  purchased p (List.filter keep l) = List.filter keep (purchased p l).
Proof.
  induction l as [|x l IH]; simpl; [reflexivity|].
  destruct (keep x) eqn:Hk; simpl; case_decide; simpl; rewrite ?Hk, IH; reflexivity.
Qed.

Lemma dated_filter (keep : entry -> bool) (l : list entry) :
  dated l -> dated (List.filter keep l).
Proof.
  unfold dated. rewrite !Forall_forall. intros H e He.
  apply list_elem_of_In, filter_In in He as [He _]. apply H. by apply list_elem_of_In.
Qed.

Lemma sorted_filter (keep : entry -> bool) (l : list entry) :
  StronglySorted not_before l -> StronglySorted not_before (List.filter keep l).
Proof.
  induction 1 as [|x l Hs IH Hx]; simpl; [constructor|].
  destruct (keep x); [|exact IH]. constructor; [exact IH|].
  rewrite Forall_forall in *. intros e He.
  apply list_elem_of_In, filter_In in He as [He _]. apply Hx. by apply list_elem_of_In.
Qed.

(** Sorting and leaving entries out can be done in either order. *)
Lemma sort_filter (keep : entry -> bool) (l : list entry) :
  dated l -> List.filter keep (sort l) = sort (List.filter keep l).
Proof.
  intros Hd. apply sort_unique.
  - by apply dated_filter.
  - by apply dated_filter, sort_dated.
  - by apply sorted_filter, sort_sorted.
  - intros p. by rewrite !purchased_filter, sort_purchased.
Qed.

(** X10. When every purchase time parses, the entries of the other product
    have no bearing on the entry that is chosen: two verifier results with the
    same entries of the requested product, in the same order, give the same
    entitlement, and so does the result with all other entries left out. *)
Theorem other_products_ignored (w : world) (mdl : model_id) (r r' : appleResponse) :
  dated (inApp r) -> dated (inApp r') ->
  List.filter (for_product (productID mdl)) (inApp r)
    = List.filter (for_product (productID mdl)) (inApp r') ->
  entitlement w mdl r = entitlement w mdl r' /\
  entitlement w mdl r =
    entitlement w mdl
      {| latest_receipt_info := Some (List.filter (for_product (productID mdl)) (inApp r)) |}.
Proof.
  intros Hd Hd' Hsame.
  assert (Hkey : forall x, dated (inApp x) ->
            entitlement w mdl x =
            validTransaction (Date_now w) 0 (productID mdl)
              (sort (List.filter (for_product (productID mdl)) (inApp x)))).
  { intros x Hx. unfold entitlement.
    by rewrite <- validTransaction_filter, sort_filter. }
  split; [by rewrite (Hkey r Hd), (Hkey r' Hd'), Hsame|].
  rewrite (Hkey r Hd), (Hkey {| latest_receipt_info := Some _ |}) by (by apply dated_filter).
  f_equal. f_equal. unfold inApp at 2. cbn [latest_receipt_info].
  generalize (inApp r). intros l. induction l as [|x l IH]; simpl; [reflexivity|].
  destruct (for_product (productID mdl) x) eqn:E; simpl; rewrite ?E, <- ?IH; reflexivity.
Qed.

Lemma other_products_ignored_witness :
  let mine := subscription "com.omegaai.chat4" "2000" "1000" in
  let r := {| latest_receipt_info :=
                Some [subscription "com.omegaai.chat3" "9000" "3000"; mine] |} in
  let r' := {| latest_receipt_info := Some [mine] |} in
  dated (inApp r) /\ dated (inApp r') /\
  entitlement premium_world Gpt4 r = entitlement premium_world Gpt4 r'.
Proof.
  intros mine r r'.
  assert (Hd : dated (inApp r)).
  { repeat constructor; [by exists 3000|by exists 1000]. }
  assert (Hd' : dated (inApp r')).
  { repeat constructor. by exists 1000. }
  split; [exact Hd|]. split; [exact Hd'|].
  exact (proj1 (other_products_ignored premium_world Gpt4 r r' Hd Hd' eq_refl)).
Defined.

(** ** The earlier proxy and the reply text *)

(** From the message on: the plain member access of the earlier proxy against
    the optional access of [server.js]. *)
Lemma extraction_from_message (message : option json) :
  (Proxy.member (property (js "content")) message = Rejected /\
   match optional (property (js "content")) message with
   | None | Some JNull => Fulfilled None
   | Some (JString s) => Fulfilled (Some (trim s))
   | Some _ => Rejected
   end = Fulfilled None) \/
  (exists content,
      Proxy.member (property (js "content")) message = Fulfilled content /\
      match optional (property (js "content")) message with
      | None | Some JNull => Fulfilled None
      | Some (JString s) => Fulfilled (Some (trim s))
      | Some _ => Rejected
      end = match content with
            | None | Some JNull => Fulfilled None
            | Some (JString s) => Fulfilled (Some (trim s))
            | Some _ => Rejected
            end).
Proof.
  destruct message as [[| | | | |l3]|];
    first [ left; split; reflexivity
          | right; exists None; split; reflexivity
          | right; exists (own_property (js "content") l3); split; reflexivity ].
Qed.

(** From the first choice on. *)
Lemma extraction_from_first (first : option json) :
  let plain :=
    match Proxy.member (property (js "message")) first with
    | Rejected => Rejected
    | Fulfilled message => Proxy.member (property (js "content")) message
    end in
  let guarded :=
    match optional (property (js "content")) (optional (property (js "message")) first) with
    | None | Some JNull => Fulfilled None
    | Some (JString s) => Fulfilled (Some (trim s))
    | Some _ => Rejected
    end in
  (plain = Rejected /\ guarded = Fulfilled None) \/
  (exists content,
      plain = Fulfilled content /\
      guarded = match content with
                | None | Some JNull => Fulfilled None
                | Some (JString s) => Fulfilled (Some (trim s))
                | Some _ => Rejected
                end).
Proof.
  cbv zeta. destruct first as [[| |n|s|items|l2]|];
    try (left; split; reflexivity).
  exact (extraction_from_message (property (js "message") (JObject l2))).
Qed.

(** From the list of choices on. *)
Lemma extraction_from_choices (choices : option json) :
  let plain :=
    match Proxy.member index0 choices with
    | Rejected => Rejected
    | Fulfilled first =>
        match Proxy.member (property (js "message")) first with
        | Rejected => Rejected
        | Fulfilled message => Proxy.member (property (js "content")) message
        end
    end in
  let guarded :=
    match optional (property (js "content"))
            (optional (property (js "message")) (optional index0 choices)) with
    | None | Some JNull => Fulfilled None
    | Some (JString s) => Fulfilled (Some (trim s))
    | Some _ => Rejected
    end in
  (plain = Rejected /\ guarded = Fulfilled None) \/
  (exists content,
      plain = Fulfilled content /\
      guarded = match content with
                | None | Some JNull => Fulfilled None
                | Some (JString s) => Fulfilled (Some (trim s))
                | Some _ => Rejected
                end).
Proof.
  cbv zeta. destruct choices as [[| |n|s|items|l1]|];
    try (left; split; reflexivity).
  - exact (extraction_from_first (index0 (JString s))).
  - exact (extraction_from_first (index0 (JArray items))).
  - exact (extraction_from_first (index0 (JObject l1))).
Qed.

(** The two ways of reading the reply, side by side. *)
Lemma extraction_cases (j : json) :
  (j = JNull /\ Proxy.aiReply j = Rejected /\ replyText j = Rejected) \/
  (Proxy.aiReply j = Rejected /\ replyText j = Fulfilled None) \/
  (exists content,
      Proxy.aiReply j = Fulfilled content /\
      replyText j = match content with
                    | None | Some JNull => Fulfilled None
                    | Some (JString s) => Fulfilled (Some (trim s))
                    | Some _ => Rejected
                    end).
Proof.
  destruct j as [|b|n|s|items|l].
  - left. repeat split.
  - right. exact (extraction_from_choices (property (js "choices") (JBool b))).
  - right. exact (extraction_from_choices (property (js "choices") (JNumber n))).
  - right. exact (extraction_from_choices (property (js "choices") (JString s))).
  - right. exact (extraction_from_choices (property (js "choices") (JArray items))).
  - right. exact (extraction_from_choices (property (js "choices") (JObject l))).
Qed.

(** X11. The earlier proxy and [server.js] read the same reply out of a
    completion: [server.js] finds a reply text exactly when the earlier proxy
    finds a string, and the text is that string trimmed.  Where the earlier
    proxy fails on a missing step of the path, [server.js] finds no text (or
    fails as well, on a document that is [null]).  So whenever the completion
    service answers with a document from which [server.js] would reply, the
    earlier proxy answers 200 with the untrimmed string. *)
Theorem reply_extraction_agrees (j : json) :
  (forall txt,
     replyText j = Fulfilled (Some txt) <->
     exists s, Proxy.aiReply j = Fulfilled (Some (JString s)) /\ txt = trim s) /\
  (Proxy.aiReply j = Rejected ->
     replyText j = Fulfilled None \/ (j = JNull /\ replyText j = Rejected)) /\
  (forall post userMessage txt,
     post (Proxy.payload userMessage) = Fulfilled j ->
     replyText j = Fulfilled (Some txt) ->
     exists s,
       Proxy.res (Proxy.chat post userMessage) =
         {| Proxy.status := 200; Proxy.body := Proxy.reply (Some (JString s)) |} /\
       trim s = txt).
Proof.
  assert (H1 : forall txt,
     replyText j = Fulfilled (Some txt) <->
     exists s, Proxy.aiReply j = Fulfilled (Some (JString s)) /\ txt = trim s).
  { intros txt.
    destruct (extraction_cases j) as [(_ & Ha & Hr)|[(Ha & Hr)|(content & Ha & Hr)]];
      rewrite Ha, Hr.
    - split; [discriminate|]. by intros (s & ? & _).
    - split; [discriminate|]. by intros (s & ? & _).
    - destruct content as [[| | |s| |]|];
        (split; [try discriminate|try (by intros (s' & ? & _))]).
      + intros [= <-]. by exists s.
      + intros (s' & [= <-] & ->). reflexivity. }
  split; [exact H1|]. split.
  - intros Ha.
    destruct (extraction_cases j) as [(Hj & _ & Hr)|[(_ & Hr)|(content & Ha' & _)]]; auto.
    rewrite Ha in Ha'. discriminate.
  - intros post userMessage txt Hp Hr. apply H1 in Hr as (s & Ha & ->).
    exists s. unfold Proxy.chat. rewrite Hp, Ha. split; reflexivity.
Qed.

Lemma reply_extraction_agrees_witness :
  let post := fun _ : json => Fulfilled (completion " Hi there ") in
  post (Proxy.payload (Some (JString (js "Hello")))) = Fulfilled (completion " Hi there ") /\
  replyText (completion " Hi there ") = Fulfilled (Some (js "Hi there")) /\
  exists s,
    Proxy.res (Proxy.chat post (Some (JString (js "Hello")))) =
      {| Proxy.status := 200; Proxy.body := Proxy.reply (Some (JString s)) |} /\
    trim s = js "Hi there".
Proof.
  intros post. split; [reflexivity|]. split; [reflexivity|].
  destruct (reply_extraction_agrees (completion " Hi there ")) as (_ & _ & H).
  exact (H post (Some (JString (js "Hello"))) (js "Hi there") eq_refl eq_refl).
Defined.

(** X12. The earlier proxy posts one document to the completion service
    whatever the request holds and answers 200 or 500: 200 exactly when the
    service resolves with a document whose path to the content of the first
    choice is there, with whatever that content is, and 500 with one fixed
    message otherwise.  It is laxer than [server.js]: a content that is absent,
    [null], blank or not a string gets a 200 from it, where [server.js]
    answers 500 and counts nothing. *)
Theorem proxy_answers (post : json -> settled json) (userMessage : option json) :
  Proxy.posted (Proxy.chat post userMessage) = [Proxy.payload userMessage] /\
  (forall v,
     Proxy.res (Proxy.chat post userMessage) =
       {| Proxy.status := 200; Proxy.body := Proxy.reply v |} <->
     exists data, post (Proxy.payload userMessage) = Fulfilled data /\
                  Proxy.aiReply data = Fulfilled v) /\
  ((forall data, post (Proxy.payload userMessage) = Fulfilled data ->
                 Proxy.aiReply data = Rejected) ->
   Proxy.res (Proxy.chat post userMessage) =
     {| Proxy.status := 500;
        Proxy.body := Proxy.error "Error communicating with OpenAI" |}) /\
  (forall data v mdl tid t,
     Proxy.aiReply data = Fulfilled v ->
     (forall s, v = Some (JString s) -> trim s = []) ->
     status (commit mdl tid (Fulfilled data) t).2 = 500 /\
     (commit mdl tid (Fulfilled data) t).1 = t).
Proof.
  split; [|split; [|split]].
  - unfold Proxy.chat. destruct (post (Proxy.payload userMessage)) as [data|]; [|reflexivity].
    destruct (Proxy.aiReply data); reflexivity.
  - intros v. unfold Proxy.chat.
    destruct (post (Proxy.payload userMessage)) as [data|].
    + destruct (Proxy.aiReply data) as [v'|] eqn:E; simpl.
      * split; [intros [= <-]; by exists data|]. intros (d & [= <-] & Hd).
        rewrite E in Hd. by injection Hd as <-.
      * split; [discriminate|]. intros (d & [= <-] & Hd). rewrite E in Hd. discriminate.
    + simpl. split; [discriminate|]. by intros (d & ? & _).
  - intros H. unfold Proxy.chat.
    destruct (post (Proxy.payload userMessage)) as [data|]; [|reflexivity].
    by rewrite (H data eq_refl).
  - intros data v mdl tid t Ha Hv. unfold commit.
    destruct (extraction_cases data) as [(_ & Ha' & _)|[(Ha' & _)|(content & Ha' & ->)]];
      rewrite Ha in Ha'; try discriminate.
    injection Ha' as <-.
    destruct v as [[| | |s| |]|]; try (split; reflexivity).
    rewrite (Hv s eq_refl). split; reflexivity.
Qed.

Lemma proxy_answers_witness :
  let data := JObject [(js "choices",
                JArray [JObject [(js "message", JObject [(js "content", JString (js "  "))])]])] in
  Proxy.aiReply data = Fulfilled (Some (JString (js "  "))) /\
  (forall s, Some (JString (js "  ")) = Some (JString s) -> trim s = []) /\
  Proxy.res (Proxy.chat (fun _ => Fulfilled data) None) =
    {| Proxy.status := 200; Proxy.body := Proxy.reply (Some (JString (js "  "))) |} /\
  status (commit Gpt4 T1 (Fulfilled data) (premium_at 7)).2 = 500.
Proof.
  intros data.
  assert (Ha : Proxy.aiReply data = Fulfilled (Some (JString (js "  ")))) by reflexivity.
  assert (Hs : forall s, Some (JString (js "  ")) = Some (JString s) -> trim s = []).
  { intros s [= <-]. reflexivity. }
  split; [exact Ha|]. split; [exact Hs|]. split; [reflexivity|].
  destruct (proxy_answers (fun _ => Fulfilled data) None) as (_ & _ & _ & H).
  exact (proj1 (H data _ Gpt4 T1 (premium_at 7) Ha Hs)).
Defined.

(** ** Process start *)

Lemma set_in_spec (env : environ) (name : string) :
  set_in env name = false <-> env !! name = None \/ env !! name = Some ""%string.
Proof.
  unfold set_in. destruct (env !! name) as [v|]; [|split; auto].
  case_bool_decide as Hv; simpl.
  - subst v. split; auto.
  - split; [discriminate|]. intros [H|H]; [discriminate H|]. congruence.
Qed.

(** X13. The process exits, with code 1, exactly when the shared secret or
    the API key is missing from the environment or is the empty string, and
    the message names the first of the two that is; otherwise it listens, on
    the port of the environment when that is set and not empty, and on 3000
    when it is not. *)
Theorem startup_refuses_without_secrets (env : environ) :
  ((exists code message, startup env = Exit code message) <->
   (env !! "APPLE_SHARED_SECRET"%string = None \/
    env !! "APPLE_SHARED_SECRET"%string = Some ""%string) \/
   (env !! "OPENAI_API_KEY"%string = None \/
    env !! "OPENAI_API_KEY"%string = Some ""%string)) /\
  (forall code message, startup env = Exit code message ->
     code = 1 /\
     (message = "❌ Missing APPLE_SHARED_SECRET in environment variables!"%string <->
      (env !! "APPLE_SHARED_SECRET"%string = None \/
       env !! "APPLE_SHARED_SECRET"%string = Some ""%string))) /\
  (forall PORT, startup env = Listen PORT ->
     match env !! "PORT"%string with
     | Some value => if decide (value = ""%string) then PORT = inr 3000 else PORT = inl value
     | None => PORT = inr 3000
     end).
Proof.
  pose proof (set_in_spec env "APPLE_SHARED_SECRET") as HA.
  pose proof (set_in_spec env "OPENAI_API_KEY") as HO.
  unfold startup.
  destruct (set_in env "APPLE_SHARED_SECRET") eqn:E1; simpl.
  - assert (HA' : ~ (env !! "APPLE_SHARED_SECRET"%string = None \/
                     env !! "APPLE_SHARED_SECRET"%string = Some ""%string)).
    { intros H. apply HA in H. discriminate. }
    destruct (set_in env "OPENAI_API_KEY") eqn:E2; simpl.
    + assert (HO' : ~ (env !! "OPENAI_API_KEY"%string = None \/
                       env !! "OPENAI_API_KEY"%string = Some ""%string)).
      { intros H. apply HO in H. discriminate. }
      split; [|split].
      * split; [by intros (? & ? & ?)|tauto].
      * discriminate.
      * intros PORT [= <-]. destruct (env !! "PORT"%string) as [v|]; [|reflexivity].
        case_bool_decide; case_decide; congruence.
    + split; [|split].
      * split; [intros _; right; by apply HO|eauto].
      * intros code message [= <- <-]. split; [reflexivity|].
        split; [discriminate|tauto].
      * discriminate.
  - split; [|split].
    + split; [intros _; left; by apply HA|eauto].
    + intros code message [= <- <-]. split; [reflexivity|].
      split; [intros _; by apply HA|reflexivity].
    + discriminate.
Qed.

Lemma startup_refuses_without_secrets_witness :
  let env : environ := {[ "APPLE_SHARED_SECRET"%string := "s3cret"%string;
                          "OPENAI_API_KEY"%string := ""%string ]} in
  startup env = Exit 1 "❌ Missing OPENAI_API_KEY in environment variables!" /\
  (env !! "OPENAI_API_KEY"%string = None \/ env !! "OPENAI_API_KEY"%string = Some ""%string).
Proof.
  intros env.
  assert (H : env !! "OPENAI_API_KEY"%string = None \/
              env !! "OPENAI_API_KEY"%string = Some ""%string).
  { right. reflexivity. }
  split; [|exact H].
  destruct (startup_refuses_without_secrets env) as (Hexit & Hcode & _).
  destruct (proj2 Hexit (or_intror H)) as (code & message & Hs).
  destruct (Hcode code message Hs) as (-> & _). rewrite Hs. f_equal.
  vm_compute in Hs. by injection Hs as <-.
Defined.

(** ** Turns and answers *)

Lemma step_turns (w : world) (p : pc) (t : tracker) :
  (turns_left (step w p t).2 <= pred (turns_left p))%nat.
Proof.
  destruct p as [b|prmt mdl rcpt|prmt mdl tid|o|mdl tid o|r]; simpl.
  - destruct (validate b) as [r|[[rcpt prmt] mdl]]; simpl; lia.
  - destruct (authorize w mdl (verifyReceipt w rcpt (validationOptions w)) t) as [t1 [r|tid]];
      simpl; lia.
  - destruct (fetch w mdl (trim prmt)) as [o|]; [destruct (ok o)|]; simpl; lia.
  - lia.
  - destruct (commit mdl tid (json_of o) t); simpl; lia.
  - lia.
Qed.

Lemma resume_lookup (i j : nat) (s : server) (w : world) (p : pc) :
  inflight s !! i = Some (w, p) ->
  inflight (resume j s) !! i =
    Some (w, if decide (j = i) then (step w p (store s)).2 else p).
Proof.
  intros Hi. unfold resume. case_decide as Hj.
  - subst j. rewrite Hi. destruct (step w p (store s)) as [t' p']. simpl.
    apply list_lookup_insert_eq. by eapply lookup_lt_Some.
  - destruct (inflight s !! j) as [[w' p']|]; [|exact Hi].
    destruct (step w' p' (store s)) as [t'' p'']. simpl.
    by rewrite list_lookup_insert_ne.
Qed.

Lemma run_turns (schedule : list nat) (s : server) (i : nat) (w : world) (p : pc) :
  inflight s !! i = Some (w, p) ->
  exists p', inflight (run schedule s) !! i = Some (w, p') /\
             (turns_left p' <= turns_left p - turns i schedule)%nat.
Proof.
  revert s p. induction schedule as [|j rest IH]; intros s p Hi; simpl.
  - exists p. split; [exact Hi|lia].
  - pose proof (resume_lookup i j s w p Hi) as Hnext.
    destruct (IH _ _ Hnext) as (p' & Hp' & Hle). exists p'. split; [exact Hp'|].
    case_decide; [|simpl; lia].
    pose proof (step_turns w p (store s)). simpl. lia.
Qed.

(** X14. Whatever else the event loop runs in between, a request is answered
    once it has had four turns, and its place never changes hands; an answer,
    once given, stays as it is under every further schedule. *)
Theorem answered_within_four_turns (schedule : list nat) (s : server) (i : nat)
    (w : world) (p : pc) :
  inflight s !! i = Some (w, p) ->
  ((4 <= turns i schedule)%nat ->
     exists r, inflight (run schedule s) !! i = Some (w, Responded r)) /\
  (forall r, p = Responded r ->
     inflight (run schedule s) !! i = Some (w, Responded r)) /\
  length (inflight (run schedule s)) = length (inflight s).
Proof.
  intros Hi. split; [|split].
  - intros H4. destruct (run_turns schedule s i w p Hi) as (p' & Hp' & Hle).
    assert (H0 : turns_left p' = O).
    { assert (turns_left p <= 4)%nat by (destruct p; simpl; lia). lia. }
    destruct p'; try discriminate H0. eauto.
  - intros r ->. revert s Hi. induction schedule as [|j rest IH]; intros s Hi;
      simpl; [exact Hi|].
    apply IH. rewrite (resume_lookup i j s w _ Hi). by case_decide.
  - clear Hi. revert s. induction schedule as [|j rest IH]; intros s; simpl; [reflexivity|].
    rewrite IH. unfold resume. destruct (inflight s !! j) as [[w' p']|]; [|reflexivity].
    destruct (step w' p' (store s)). simpl. apply length_insert.
Qed.

Lemma answered_within_four_turns_witness :
  let s := two_premium_requests 799 in
  inflight s !! 1%nat = Some (premium_world, Received (request "gpt-4")) /\
  (4 <= turns 1 [0; 1; 1; 0; 1; 0; 1; 0])%nat /\
  exists r, inflight (run [0; 1; 1; 0; 1; 0; 1; 0]%nat s) !! 1%nat
            = Some (premium_world, Responded r).
Proof.
  intros s.
  assert (Hi : inflight s !! 1%nat = Some (premium_world, Received (request "gpt-4")))
    by reflexivity.
  assert (H4 : (4 <= turns 1 [0; 1; 1; 0; 1; 0; 1; 0])%nat) by (vm_compute; lia).
  split; [exact Hi|]. split; [exact H4|].
  exact (proj1 (answered_within_four_turns [0; 1; 1; 0; 1; 0; 1; 0]%nat s 1%nat
                  premium_world _ Hi) H4).
Defined.

(** ** One request at a time *)

Lemma resume_middle (done post : list (world * pc)) (w : world) (p : pc) (t : tracker) :
  resume (length done) {| store := t; inflight := done ++ (w, p) :: post |} =
    {| store := (step w p t).1; inflight := done ++ (w, (step w p t).2) :: post |}.
Proof.
  unfold resume. simpl. rewrite list_lookup_middle by reflexivity.
  destruct (step w p t) as [t' p']. simpl. f_equal.
  rewrite insert_app_r_alt by lia. by rewrite Nat.sub_diag.
Qed.

(** The four runs of the handler, one after the other, make up [chat]. *)
Lemma four_steps (w : world) (b : chat_body) (t : tracker) :
  let s1 := step w (Received b) t in
  let s2 := step w s1.2 s1.1 in
  let s3 := step w s2.2 s2.1 in
  step w s3.2 s3.1 = (usageTracker (chat w b t), Responded (res (chat w b t))).
Proof.
  unfold chat. simpl.
  destruct (validate b) as [r|[[rcpt prmt] mdl]]; simpl; [reflexivity|].
  destruct (authorize w mdl (verifyReceipt w rcpt (validationOptions w)) t) as [t1 [r|tid]];
    simpl; [reflexivity|].
  destruct (fetch w mdl (trim prmt)) as [o|]; simpl; [|reflexivity].
  destruct (ok o); simpl; [|reflexivity].
  destruct (commit mdl tid (json_of o) t1) as [t2 out]; reflexivity.
Qed.

Lemma run_app (l1 l2 : list nat) (s : server) : run (l1 ++ l2) s = run l2 (run l1 s).
Proof. revert s. induction l1 as [|i l1 IH]; intros s; simpl; [reflexivity|apply IH]. Qed.

Lemma run_four_middle (done post : list (world * pc)) (w : world) (b : chat_body)
    (t : tracker) :
  run [length done; length done; length done; length done]
      {| store := t; inflight := done ++ (w, Received b) :: post |} =
    {| store := usageTracker (chat w b t);
       inflight := done ++ (w, Responded (res (chat w b t))) :: post |}.
Proof.
  cbn [run]. rewrite !resume_middle.
  pose proof (four_steps w b t) as H. cbv zeta in H. by rewrite H.
Qed.

Lemma sequential_serve (requests : list (world * chat_body)) :
  forall (done : list (world * pc)) (t : tracker),
    run (sequential (length done) (length requests))
        {| store := t; inflight := done ++ arriving requests |} =
      {| store := serve requests t; inflight := done ++ answered requests t |}.
Proof.
  induction requests as [|[w b] rest IH]; intros done t; [reflexivity|].
  cbn [length sequential arriving map serve answered fst snd].
  rewrite run_app, run_four_middle.
  specialize (IH (done ++ [(w, Responded (res (chat w b t)))]) (usageTracker (chat w b t))).
  rewrite length_app, Nat.add_1_r, <- !app_assoc in IH. exact IH.
Qed.

(** X15. Run by the event loop one request to its end before the next, the
    requests in flight leave the tracker and get the answers that handling
    them one after the other gives: the runs between suspensions compose to
    the handler. *)
Theorem one_at_a_time (requests : list (world * chat_body)) (t : tracker) :
  run (sequential 0 (length requests)) {| store := t; inflight := arriving requests |} =
    {| store := serve requests t; inflight := answered requests t |} /\
  length (answered requests t) = length requests /\
  (forall i w b, requests !! i = Some (w, b) ->
     exists r, answered requests t !! i = Some (w, Responded r)).
Proof.
  split; [exact (sequential_serve requests [] t)|]. split.
  - revert t. induction requests as [|[w b] rest IH]; intros t; simpl; [reflexivity|].
    by rewrite IH.
  - revert t. induction requests as [|[w0 b0] rest IH]; intros t i w b Hi; [discriminate|].
    destruct i as [|i]; simpl in *.
    + injection Hi as -> ->. eauto.
    + by eapply IH.
Qed.

(** ** Numbers and their numerals *)

Lemma digits_decimal (d : Decimal.uint) :
  forall a, digits 10 (js (NilEmpty.string_of_uint d)) (Some a) = Some (decimal_value d a).
Proof. induction d; intros a; [reflexivity|..]; apply IHd. Qed.

Lemma digits_decimal_start (d : Decimal.uint) :
  d <> Decimal.Nil ->
  digits 10 (js (NilEmpty.string_of_uint d)) None = Some (decimal_value d 0).
Proof.
  destruct d; [congruence|..]; intros _;
    first [ exact (digits_decimal d 0) | exact (digits_decimal d 1)
          | exact (digits_decimal d 2) | exact (digits_decimal d 3)
          | exact (digits_decimal d 4) | exact (digits_decimal d 5)
          | exact (digits_decimal d 6) | exact (digits_decimal d 7)
          | exact (digits_decimal d 8) | exact (digits_decimal d 9) ].
Qed.

Lemma decimal_value_acc (d : Decimal.uint) :
  forall acc, Zpos (Pos.of_uint_acc d acc) = decimal_value d (Zpos acc).
Proof.
  induction d; intros acc; simpl; [reflexivity|..]; rewrite IHd; f_equal; lia.
Qed.

Lemma decimal_value_of_uint (d : Decimal.uint) :
  Z.of_N (Pos.of_uint d) = decimal_value d 0.
Proof.
  induction d; simpl; [reflexivity|exact IHd|..]; apply decimal_value_acc.
Qed.

Lemma decimal_value_to_uint (p : positive) : decimal_value (Pos.to_uint p) 0 = Zpos p.
Proof. by rewrite <- decimal_value_of_uint, Unsigned.of_to. Qed.

Lemma numeral_digits (d : Decimal.uint) :
  Forall is_decimal_digit (js (NilEmpty.string_of_uint d)).
Proof.
  induction d; simpl; constructor; try assumption; unfold is_decimal_digit; lia.
Qed.

Lemma decimal_digit_cases (c : N) :
  is_decimal_digit c ->
  (c = 48 \/ c = 49 \/ c = 50 \/ c = 51 \/ c = 52 \/
   c = 53 \/ c = 54 \/ c = 55 \/ c = 56 \/ c = 57)%N.
Proof. unfold is_decimal_digit. lia. Qed.

(** On a string of decimal digits, [parseInt] reads them all, in radix 10. *)
Lemma parseInt_string_digits (s : jsstring) :
  s <> [] -> Forall is_decimal_digit s ->
  parseInt_string s = digits 10 s None /\
  parseInt_string (45%N :: s) =
    match digits 10 s None with Some n => Some (- n) | None => None end.
Proof.
  intros Hne Hall. destruct s as [|c s]; [congruence|].
  inversion Hall as [|? ? Hc Hs]; subst.
  assert (Hsecond : s = [] \/ exists c2 r, s = c2 :: r /\ is_decimal_digit c2).
  { destruct s as [|c2 r]; [by left|right]. inversion Hs; subst. eauto. }
  assert (Hsign : forall n : Z, -1 * n = - n) by (intros; lia).
  assert (Hone : forall n : Z, 1 * n = n) by (intros; lia).
  unfold parseInt_string.
  destruct (decimal_digit_cases c Hc) as [->|[->|[->|[->|[->|[->|[->|[->|[->| ->]]]]]]]]];
    cbn [trim_start is_white_space N.leb N.eqb N.compare Pos.compare Pos.compare_cont
         andb orb Pos.eqb];
    try (split; destruct (digits 10 _ None); rewrite ?Hsign, ?Hone; reflexivity).
  destruct Hsecond as [->|(c2 & r & -> & Hc2)]; [split; reflexivity|].
  destruct (decimal_digit_cases c2 Hc2) as [->|[->|[->|[->|[->|[->|[->|[->|[->| ->]]]]]]]]];
    split; destruct (digits 10 _ None); rewrite ?Hsign, ?Hone; reflexivity.
Qed.

(** X16. For an integer in the range where numbers are exact, converting it
    to its numeral and parsing that gives the integer back: [parseInt] reads a
    number and the string of its decimal digits alike, so an expiration time
    handed over as a number counts as the same time handed over as a string. *)
Theorem parseInt_numeral (n : Z) :
  Z.abs n < 2 ^ 53 ->
  parseInt (VNumber n) = Some n /\
  parseInt (VString (ToString (VNumber n))) = Some n /\
  (forall e nowMs, expires_date_ms e = VNumber n -> unexpired nowMs e = (nowMs <? n)).
Proof.
  intros _.
  assert (Hnil : forall d, d <> Decimal.Nil ->
            NilZero.string_of_uint d = NilEmpty.string_of_uint d).
  { intros d Hd. destruct d; [congruence|..]; reflexivity. }
  assert (H : parseInt (VNumber n) = Some n).
  { unfold parseInt, ToString. destruct n as [|p|p]; [reflexivity|..]; simpl Z.to_int;
      unfold NilZero.string_of_int; rewrite (Hnil _ (Unsigned.to_uint_nonnil p)).
    - assert (Hs : js (NilEmpty.string_of_uint (Pos.to_uint p)) <> []).
      { pose proof (Unsigned.to_uint_nonnil p).
        destruct (Pos.to_uint p); [congruence|..]; discriminate. }
      destruct (parseInt_string_digits _ Hs (numeral_digits (Pos.to_uint p))) as (Hp & _).
      rewrite Hp, (digits_decimal_start _ (Unsigned.to_uint_nonnil p)).
      by rewrite decimal_value_to_uint.
    - assert (Hs : js (NilEmpty.string_of_uint (Pos.to_uint p)) <> []).
      { pose proof (Unsigned.to_uint_nonnil p).
        destruct (Pos.to_uint p); [congruence|..]; discriminate. }
      destruct (parseInt_string_digits _ Hs (numeral_digits (Pos.to_uint p))) as (_ & Hm).
      change (parseInt_string (45%N :: js (NilEmpty.string_of_uint (Pos.to_uint p)))
              = Some (Zneg p)).
      rewrite Hm, (digits_decimal_start _ (Unsigned.to_uint_nonnil p)).
      by rewrite decimal_value_to_uint. }
  split; [exact H|]. split; [exact H|].
  intros e nowMs He. unfold unexpired. by rewrite He, H.
Qed.

Lemma parseInt_numeral_witness :
  Z.abs 1700000000000 < 2 ^ 53 /\
  parseInt (VNumber 1700000000000) = Some 1700000000000 /\
  parseInt (VString (js "1700000000000")) = Some 1700000000000.
Proof.
  assert (H : Z.abs 1700000000000 < 2 ^ 53) by (vm_compute; reflexivity).
  split; [exact H|].
  destruct (parseInt_numeral 1700000000000 H) as (H1 & H2 & _).
  split; [exact H1|exact H2].
Defined.

(** ** The scan as a search *)

(** X17. When the clock stands still during the scan, the loop of lines
    66-76 is a search for the first entry that is of the product and
    unexpired, and the entitlement is that search over the sorted entries. *)
Theorem scan_is_find (w : world) (mdl : model_id) (r : appleResponse) (nowMs : Z) :
  (forall k, Date_now w k = nowMs) ->
  (forall i l,
     validTransaction (Date_now w) i (productID mdl) l =
     List.find (fun e => for_product (productID mdl) e && unexpired nowMs e) l) /\
  entitlement w mdl r =
    List.find (fun e => for_product (productID mdl) e && unexpired nowMs e)
      (sort (inApp r)).
Proof.
  intros Hnow.
  assert (H : forall i l,
     validTransaction (Date_now w) i (productID mdl) l =
     List.find (fun e => for_product (productID mdl) e && unexpired nowMs e) l).
  { intros i l. revert i. induction l as [|e l IH]; intros i; simpl; [reflexivity|].
    rewrite Hnow. destruct (for_product (productID mdl) e); simpl; [|apply IH].
    destruct (unexpired nowMs e); [reflexivity|apply IH]. }
  split; [exact H|apply H].
Qed.

Lemma scan_is_find_witness :
  let r := {| latest_receipt_info :=
                Some [subscription "com.omegaai.chat4" "1200" "3000";
                      subscription "com.omegaai.chat4" "2000" "1000"] |} in
  (forall k, Date_now premium_world k = 1500) /\
  entitlement premium_world Gpt4 r = Some (subscription "com.omegaai.chat4" "2000" "1000").
Proof.
  intros r.
  assert (H : forall k, Date_now premium_world k = 1500) by reflexivity.
  split; [exact H|].
  rewrite (proj2 (scan_is_find premium_world Gpt4 r 1500 H)). reflexivity.
Defined.

(** ** Sorting what is sorted *)

(** X18. On entries whose purchase times all parse, the sort keeps the number
    of entries, leaves a list alone that already has later purchases first,
    and so changes nothing when it is applied again to the array it has
    sorted in place. *)
Theorem sort_settles (l : list entry) :
  dated l ->
  length (sort l) = length l /\
  (StronglySorted not_before l -> sort l = l) /\
  sort (sort l) = sort l.
Proof.
  intros Hd. split; [by rewrite sort_perm|]. split.
  - intros Hs. symmetry. by apply sort_unique.
  - symmetry. apply sort_unique; [by apply sort_dated|by apply sort_dated| |].
    + by apply sort_sorted.
    + reflexivity.
Qed.

Lemma sort_settles_witness :
  let l := [subscription "com.omegaai.chat4" "9000" "1000";
            subscription "com.omegaai.chat3" "8000" "3000";
            subscription "com.omegaai.chat4" "8000" "2000"] in
  dated l /\ length (sort l) = 3%nat /\ sort (sort l) = sort l.
Proof.
  intros l.
  assert (Hd : dated l).
  { repeat constructor; [by exists 1000|by exists 3000|by exists 2000]. }
  split; [exact Hd|].
  destruct (sort_settles l Hd) as (Hlen & _ & Hidem).
  split; [exact Hlen|exact Hidem].
Defined.
